(** * ExpressionParser: the feature cache and the expression evaluators

    A shallow embedding of [src/utils/ExpressionParser.js]: the static
    [ExpressionFeatureCache] (its [store] object and [requests] set), the
    synchronous body of [parseExpression] and of [parseExpressionsAsync], and
    the event loop around them (completion of a [getFeatures] request, the
    [then] continuation registered on [Promise.all]).

    Everything the module calls but does not define is kept as an explicit
    log in the state ([getFeatures] invocations, [console.warn] lines, texts
    handed to [parser.feed], [reevaluateCallback] invocations), or is a
    parameter (the compiled grammar, which lives in [./expr_grammar/grammar]).
    [getFeatures] is asynchronous, as its callers assume: its callback runs in
    a later turn of the event loop, any number of turns later. The three
    components of a key are taken as the strings [+] turns them into. *)

From Stdlib Require Import Ascii String.
From stdpp Require Import gmap strings list pretty.

Set Warnings "-register-all".

Section Model.

Context {Feature : Type}.

(** ** Data *)

(** A JavaScript value as far as this module looks at one. *)
Inductive Value :=
| VUndefined
| VNull
| VNum (n : Z)
| VStr (s : string)
| VBool (b : bool)
| VFeature (f : Feature)
| VArray (l : list Value).

(** What [getFeatures] hands to its callback: [null]/[undefined], an object
    without a [features] member, or an object with a [features] array. *)
Inductive FetchResult :=
| ResNull
| ResNoFeatures
| ResFeatures (features : list Feature).

(** One invocation [editIface.getFeatures(dataset, mapCrs, cb, null,
    [[attr, '=', value]])]. The promise created around the invocation is
    identified by the position of the invocation in the log. *)
Record FetchReq := mkFetchReq {
  f_iface : nat;
  f_dataset : string;
  f_crs : string;
  f_attr : string;
  f_value : string
}.

(** The arguments of [parseExpression] that are passed on unchanged to the
    re-evaluation ([reevaluate] is not among them). The interface object and
    the callback are identified by a number. *)
Record Task := mkTask {
  t_expr : string;
  t_feature : Feature;
  t_editIface : nat;
  t_mapPrefix : string;
  t_mapCrs : string;
  t_reevaluateCallback : nat;
  t_asFilter : bool
}.

(** [Promise.all(promises).then(() => parseExpression(..., true))]: the
    promises waited for and the call to make. *)
Record Waiter := mkWaiter {
  w_promises : list nat;
  w_task : Task
}.

(** [store] and [requests] are the two static members of
    [ExpressionFeatureCache]; a stored [null] is [Some None]. The other
    fields record the calls that leave the module and the event-loop state. *)
Record State := mkState {
  store : gmap string (option Feature);
  requests : gset string;
  fetches : list FetchReq;
  accepted : gset nat;
  waiters : list Waiter;
  warnings : list string;
  fed : list string;
  callbacks : list nat
}.

Definition initial : State :=
  mkState ∅ ∅ [] ∅ [] [] [] [].

(** ** ExpressionFeatureCache *)

(** [dataset + ":" + attr + ":" + value] *)
Definition cache_key (dataset attr value : string) : string :=
  (dataset +:+ ":" +:+ attr +:+ ":" +:+ value)%string.

(** The arguments of [get] are the values the expression hands to
    [getFeature]: [+] with the string [":"] turns each of them into its text.
    A number is an integer here, one that JS holds exactly
    ([Number.isSafeInteger]) and so prints in plain decimal. On strings
    [scalar_key] is [cache_key]. *)
Inductive Scalar :=
  | SStr (s : string)
  | SNum (n : Z)
  | SBool (b : bool)
  | SNull
  | SUndefined.

Definition safe_scalar (v : Scalar) : bool :=
  match v with
  | SNum n => bool_decide (- (2 ^ 53 - 1) <= n <= 2 ^ 53 - 1)%Z
  | _ => true
  end.

Definition to_text (v : Scalar) : string :=
  match v with
  | SStr s => s
  | SNum n => pretty n
  | SBool true => "true"
  | SBool false => "false"
  | SNull => "null"
  | SUndefined => "undefined"
  end.

Definition scalar_key (dataset attr value : Scalar) : string :=
  cache_key (to_text dataset) (to_text attr) (to_text value).

(** The names [key in this.store] finds on [Object.prototype] rather than
    among the entries. No key is one of them ([cache_key_own]), so the test
    is a lookup among the entries. *)
Definition object_prototype_names : list string :=
  ["constructor"; "__defineGetter__"; "__defineSetter__"; "hasOwnProperty";
   "__lookupGetter__"; "__lookupSetter__"; "isPrototypeOf";
   "propertyIsEnumerable"; "toString"; "valueOf"; "__proto__";
   "toLocaleString"]%string.

Definition req_key (f : FetchReq) : string :=
  cache_key (f_dataset f) (f_attr f) (f_value f).

(** [this.requests.add(key)] followed by the [getFeatures] invocation inside
    the promise executor. *)
Definition dispatch (key : string) (f : FetchReq) (st : State) : State :=
  mkState (store st) ({[key]} ∪ requests st) (fetches st ++ [f]) (accepted st)
          (waiters st) (warnings st) (fed st) (callbacks st).

(** [ExpressionFeatureCache.get]. Returns the state, the caller's promise
    list and the returned value ([None] is [null]). *)
Definition get (editIface : nat) (dataset mapCrs attr value : string)
    (promises : list nat) (st : State) : State * list nat * option Feature :=
  let key := cache_key dataset attr value in
  match store st !! key with
  | Some v => (st, promises, v)
  | None =>
      if decide (key ∈ requests st) then (st, promises, None)
      else (dispatch key (mkFetchReq editIface dataset mapCrs attr value) st,
            promises ++ [length (fetches st)], None)
  end.

(** [result?.features || []] *)
Definition features_or_empty (result : FetchResult) : list Feature :=
  match result with
  | ResFeatures features => features
  | _ => []
  end.

(** [(result?.features || []).length === 1 ? result.features[0] : null] *)
Definition outcome (result : FetchResult) : option Feature :=
  match features_or_empty result with
  | [f] => Some f
  | _ => None
  end.

(** The body of the callback passed to [getFeatures], for the invocation
    [fid], up to [accept()]. *)
Definition store_result (key : string) (result : FetchResult) (st : State) : State :=
  if decide (key ∈ requests st) then
    mkState (<[key := outcome result]> (store st)) (requests st ∖ {[key]})
            (fetches st) (accepted st) (waiters st) (warnings st) (fed st)
            (callbacks st)
  else st.

(** [accept()] *)
Definition accept (fid : nat) (st : State) : State :=
  mkState (store st) (requests st) (fetches st) ({[fid]} ∪ accepted st)
          (waiters st) (warnings st) (fed st) (callbacks st).

(** The whole callback. An identifier that names no invocation has no
    callback to run. *)
Definition getFeatures_callback (fid : nat) (result : FetchResult) (st : State) : State :=
  match fetches st !! fid with
  | Some f => accept fid (store_result (req_key f) result st)
  | None => st
  end.

(** [ExpressionFeatureCache.clear] *)
Definition clear (st : State) : State :=
  mkState ∅ ∅ (fetches st) (accepted st) (waiters st) (warnings st) (fed st)
          (callbacks st).

(** ** The parser

    [parser.feed(text)] runs the compiled grammar, whose post-processing
    functions reach the cache through the ambient
    [window.qwc2ExpressionParserContext.getFeature]. Seen from this module a
    run of [feed] is a sequence of [getFeature] calls, each answered by the
    cache, that ends with [parser.results[0]] available or with an exception. *)
Inductive Prog :=
| Done (result : Value)
| Throw
| GetFeature (layerName attr value : string) (k : option Feature -> Prog).

(** The grammar: the run of [feed] on a text, given the [feature] and the
    [asFilter] flag of the ambient context. *)
Variable grammar : Feature -> bool -> string -> Prog.

(** [expr.replace(/\n/, ' ')]: a regular expression without the [g] flag
    replaces the leftmost match only. *)
Fixpoint replace_newline (expr : string) : string :=
  match expr with
  | EmptyString => EmptyString
  | String c rest =>
      if Ascii.eqb c "010"%char then String " "%char rest
      else String c (replace_newline rest)
  end.

Definition log_fed (text : string) (st : State) : State :=
  mkState (store st) (requests st) (fetches st) (accepted st) (waiters st)
          (warnings st) (fed st ++ [text]) (callbacks st).

(** [console.warn(msg)] *)
Definition warn (msg : string) (st : State) : State :=
  mkState (store st) (requests st) (fetches st) (accepted st) (waiters st)
          (warnings st ++ [msg]) (fed st) (callbacks st).

(** [Promise.all(promises).then(...)] *)
Definition add_waiter (w : Waiter) (st : State) : State :=
  mkState (store st) (requests st) (fetches st) (accepted st) (waiters st ++ [w])
          (warnings st) (fed st) (callbacks st).

(** [reevaluateCallback()] *)
Definition call_callback (cb : nat) (st : State) : State :=
  mkState (store st) (requests st) (fetches st) (accepted st) (waiters st)
          (warnings st) (fed st) (callbacks st ++ [cb]).

(** A run of [feed] under the context
    [getFeature: (layerName, attr, value) =>
       ExpressionFeatureCache.get(editIface, mapPrefix + layerName, mapCrs, attr, value, promises)].
    The value is [None] when [feed] threw. *)
Fixpoint run_prog (editIface : nat) (mapPrefix mapCrs : string) (p : Prog)
    (promises : list nat) (st : State) : State * list nat * option Value :=
  match p with
  | Done result => (st, promises, Some result)
  | Throw => (st, promises, None)
  | GetFeature layerName attr value k =>
      let '(st', promises', r) :=
        get editIface (mapPrefix +:+ layerName) mapCrs attr value promises st in
      run_prog editIface mapPrefix mapCrs (k r) promises' st'
  end.

Definition failed_msg (expr : string) : string :=
  ("Failed to evaluate expression " +:+ replace_newline expr)%string.

(** [parser.feed(expr.replace(/\n/, ' '))] inside [try]/[catch]: the state,
    the promise list and [parser.results[0]], or the warning and [None]. *)
Definition try_feed (feature : Feature) (editIface : nat) (mapPrefix mapCrs : string)
    (asFilter : bool) (expr : string) (promises : list nat) (st : State)
    : State * list nat * option Value :=
  let text := replace_newline expr in
  let '(st1, promises1, r) :=
    run_prog editIface mapPrefix mapCrs (grammar feature asFilter text)
             promises (log_fed text st) in
  match r with
  | Some result => (st1, promises1, Some result)
  | None => (warn (failed_msg expr) st1, promises1, None)
  end.

(** ** parseExpression

    The synchronous body: the state after the call and the returned value.
    The recursive call sits in a [then] continuation, which is a [Waiter]. *)
Definition parseExpression (t : Task) (reevaluate : bool) (st : State) : State * Value :=
  let '(st1, promises, r) :=
    try_feed (t_feature t) (t_editIface t) (t_mapPrefix t) (t_mapCrs t)
             (t_asFilter t) (t_expr t) [] st in
  let result := match r with Some v => v | None => VNull end in
  match promises with
  | _ :: _ => (add_waiter (mkWaiter promises t) st1, VNull)
  | [] =>
      let st2 := if reevaluate then call_callback (t_reevaluateCallback t) st1 else st1 in
      (st2, if t_asFilter t then VArray [result] else result)
  end.

(** ** parseExpressionsAsync *)

(** The arguments of a batch call; [b_expressions] is
    [Object.entries(expressions)]. *)
Record Batch := mkBatch {
  b_expressions : list (string * string);
  b_feature : Feature;
  b_editIface : nat;
  b_mapPrefix : string;
  b_mapCrs : string;
  b_asFilter : bool
}.

(** The [reduce] over the entries, all against one promise list. *)
Fixpoint reduce_entries (b : Batch) (entries : list (string * string))
    (res : gmap string Value) (promises : list nat) (st : State)
    : State * list nat * gmap string Value :=
  match entries with
  | [] => (st, promises, res)
  | (key, expr) :: rest =>
      let '(st1, promises1, r) :=
        try_feed (b_feature b) (b_editIface b) (b_mapPrefix b) (b_mapCrs b)
                 (b_asFilter b) expr promises st in
      match r with
      | Some result => reduce_entries b rest (<[key := result]> res) promises1 st1
      | None => reduce_entries b rest res promises1 st1
      end
  end.

(** The executor of the returned promise runs at once. With a non-empty
    promise list, the argument of the outer [then] is evaluated on the spot:
    the nested [parseExpressionsAsync(...)] call, and then [resolve(results)]
    as the argument of the inner [then]. Neither [then] receives a function,
    so nothing is registered. The value returned here is the one the promise
    is resolved with; [None] only when the nesting exceeds [fuel]. *)
Fixpoint parseExpressionsAsync (fuel : nat) (b : Batch) (st : State)
    : option (State * gmap string Value) :=
  match fuel with
  | O => None
  | S fuel' =>
      let '(st1, promises, results) := reduce_entries b (b_expressions b) ∅ [] st in
      match promises with
      | _ :: _ =>
          match parseExpressionsAsync fuel' b st1 with
          | Some (st2, _) => Some (st2, results)
          | None => None
          end
      | [] => Some (st1, results)
      end
  end.

(** ** The event loop *)

(** What can happen, one turn of the event loop at a time. [getFeatures] is
    asynchronous: it calls back in a later turn. *)
Inductive Event :=
| EvGet (editIface : nat) (dataset mapCrs attr value : string)
| EvParseExpression (t : Task) (reevaluate : bool)
| EvParseExpressionsAsync (b : Batch)
| EvFeatures (fid : nat) (result : FetchResult)
| EvThen (i : nat)
| EvClear.

Definition ready (w : Waiter) (st : State) : bool :=
  forallb (fun fid => bool_decide (fid ∈ accepted st)) (w_promises w).

Definition remove_waiter (i : nat) (st : State) : State :=
  mkState (store st) (requests st) (fetches st) (accepted st)
          (take i (waiters st) ++ drop (S i) (waiters st))
          (warnings st) (fed st) (callbacks st).

(** The continuation of waiter [i] runs once all its promises are accepted. *)
Definition run_then (i : nat) (st : State) : State :=
  match waiters st !! i with
  | Some w =>
      if ready w st then (parseExpression (w_task w) true (remove_waiter i st)).1
      else st
  | None => st
  end.

(** One event: a call of one of the three exported entry points ([get] with
    a promise list of the caller's own), the callback of a request, a
    continuation, or [clear]. An event that cannot happen in the state (a
    callback for an invocation never made, a continuation that is not ready)
    leaves the state as it is. Two nested passes are all a batch call ever
    makes ([parseExpressionsAsync_fuel]). *)
Definition step (e : Event) (st : State) : State :=
  match e with
  | EvGet editIface dataset mapCrs attr value =>
      (get editIface dataset mapCrs attr value [] st).1.1
  | EvParseExpression t reevaluate => (parseExpression t reevaluate st).1
  | EvParseExpressionsAsync b =>
      match parseExpressionsAsync 2 b st with
      | Some (st', _) => st'
      | None => st
      end
  | EvFeatures fid result => getFeatures_callback fid result st
  | EvThen i => run_then i st
  | EvClear => clear st
  end.

Definition run (tr : list Event) (st : State) : State :=
  foldl (fun s e => step e s) st tr.

Definition is_clear (e : Event) : bool :=
  match e with EvClear => true | _ => false end.

(** Number of [getFeatures] invocations made for a key. *)
Definition dispatches (key : string) (st : State) : nat :=
  length (filter (fun f => req_key f = key) (fetches st)).

(** ** Notions used in the statements *)

(** The key has left the state "unrequested". *)
Definition requested (key : string) (st : State) : Prop :=
  key ∈ requests st \/ is_Some (store st !! key).

(** No key is pending and resolved at once. *)
Definition pending_unresolved (st : State) : Prop :=
  forall key, key ∈ requests st -> store st !! key = None.

(** What the cache answers for a key when nothing is to be dispatched. *)
Definition cached (st : State) (key : string) : option Feature :=
  default None (store st !! key).

(** The value a run of [feed] ends with; it depends on the store only, since
    [get] returns [null] for pending and unrequested keys alike. *)
Fixpoint prog_result (st : State) (mapPrefix : string) (p : Prog) : option Value :=
  match p with
  | Done result => Some result
  | Throw => None
  | GetFeature layerName attr value k =>
      prog_result st mapPrefix (k (cached st (cache_key (mapPrefix +:+ layerName) attr value)))
  end.

(** Every key a run of [feed] asks for is pending or resolved. *)
Fixpoint settled (st : State) (mapPrefix : string) (p : Prog) : Prop :=
  match p with
  | Done _ | Throw => True
  | GetFeature layerName attr value k =>
      let key := cache_key (mapPrefix +:+ layerName) attr value in
      requested key st /\ settled st mapPrefix (k (cached st key))
  end.

(** Invocations of the callback [cb] made so far, and re-evaluations still
    waiting that will hand [cb] on. *)
Definition invocations (cb : nat) (st : State) : nat :=
  length (filter (fun c => c = cb) (callbacks st)).

Definition waiting (cb : nat) (st : State) : nat :=
  length (filter (fun w => t_reevaluateCallback (w_task w) = cb) (waiters st)).

(** Occurrence of a character in a text. *)
Fixpoint occurs (c : ascii) (text : string) : bool :=
  match text with
  | EmptyString => false
  | String c' rest => Ascii.eqb c' c || occurs c rest
  end.

(** The texts handed to [parser.feed] in one pass over the entries. *)
Definition fed_texts (entries : list (string * string)) : list string :=
  map (fun e => replace_newline e.2) entries.

(** The run of [feed] a call of [parseExpression] makes, and the one
    [parseExpressionsAsync] makes for an entry. *)
Definition task_prog (t : Task) : Prog :=
  grammar (t_feature t) (t_asFilter t) (replace_newline (t_expr t)).

Definition entry_prog (b : Batch) (expr : string) : Prog :=
  grammar (b_feature b) (b_asFilter b) (replace_newline expr).

(** The promise list a call of [parseExpression] ends up with. *)
Definition round_promises (t : Task) (st : State) : list nat :=
  (try_feed (t_feature t) (t_editIface t) (t_mapPrefix t) (t_mapCrs t)
            (t_asFilter t) (t_expr t) [] st).1.2.

(** What the mapping a batch promise is resolved with holds for a name. *)
Definition resolved_with (out : option (State * gmap string Value)) (name : string)
    : option Value :=
  match out with
  | Some (_, m) => m !! name
  | None => None
  end.

(** Calls of [parseExpression] in a trace that pass the callback [cb]. *)
Definition passes (cb : nat) (e : Event) : bool :=
  match e with
  | EvParseExpression t _ => bool_decide (t_reevaluateCallback t = cb)
  | _ => false
  end.

End Model.

Arguments Value : clear implicits.
Arguments FetchResult : clear implicits.
Arguments Task : clear implicits.
Arguments Waiter : clear implicits.
Arguments State : clear implicits.
Arguments Prog : clear implicits.
Arguments Batch : clear implicits.
Arguments Event : clear implicits.

(** ** A concrete setting

    A feature is its attribute table; the grammar knows four texts. *)
Definition sc_parcel : list (string * Z) := [("id"%string, 42%Z); ("area"%string, 150%Z)].

Definition sc_attribute (name : string) (f : list (string * Z)) : Value (list (string * Z)) :=
  match list_find (fun kv => String.eqb kv.1 name) f with
  | Some (_, (_, n)) => VNum n
  | None => VUndefined
  end.

Definition sc_grammar (feature : list (string * Z)) (asFilter : bool) (text : string)
    : Prog (list (string * Z)) :=
  if String.eqb text "1+1" then Done (VNum 2)
  else if String.eqb text "{quantity} * {price}" then
    match sc_attribute "quantity" feature, sc_attribute "price" feature with
    | VNum q, VNum p => Done (VNum (q * p))
    | _, _ => Done VNull
    end
  else if String.eqb text "getFeature('parcels','id','42').area" then
    GetFeature "parcels" "id" "42"
      (fun r => match r with
                | Some f => Done (sc_attribute "area" f)
                | None => Done VNull
                end)
  else if String.eqb text "getFeature('parcels','id','42') )" then
    GetFeature "parcels" "id" "42" (fun _ => Throw)
  else Throw.

Definition sc_task (expr : string) (cb : nat) : Task (list (string * Z)) :=
  mkTask expr [("parcel_id"%string, 42%Z)] 0 "" "EPSG:2056" cb false.

Definition sc_batch : Batch (list (string * Z)) :=
  mkBatch [("x"%string, "1+1"%string);
           ("y"%string, "getFeature('parcels','id','42').area"%string)]
          [("parcel_id"%string, 42%Z)] 0 "" "EPSG:2056" false.

Definition sc_key : string := "parcels:id:42".

Definition sc_lookup : Task (list (string * Z)) :=
  sc_task "getFeature('parcels','id','42').area" 7.

Definition sc_req : FetchReq := mkFetchReq 0 "parcels" "EPSG:2056" "id" "42".

(** A direct [get], two calls and a batch ask for the same key before and
    after the request completes. *)
Definition sc_trace : list (Event (list (string * Z))) :=
  [EvGet 0 "parcels" "EPSG:2056" "id" "42";
   EvParseExpression sc_lookup false;
   EvParseExpression (sc_task "getFeature('parcels','id','42').area" 8) false;
   EvParseExpressionsAsync sc_batch;
   EvFeatures 0 (ResFeatures [sc_parcel]);
   EvThen 0;
   EvParseExpression sc_lookup false].

(** The state in which the request for [sc_key] is outstanding. *)
Definition sc_pending : State (list (string * Z)) :=
  step sc_grammar (EvParseExpression sc_lookup false) initial.

(** ** Notions used in further statements *)

(** Calls of [clear] in a trace. *)
Definition clears {Feature : Type} (tr : list (Event Feature)) : nat :=
  length (List.filter is_clear tr).

(** Calls into the module, as opposed to callbacks of requests and [clear]. *)
Definition is_evaluation {Feature : Type} (e : Event Feature) : bool :=
  match e with
  | EvFeatures _ _ | EvClear => false
  | _ => true
  end.

(** [q] is reached by the run of [p] when every key asked for on the way is
    resolved in the store. *)
Inductive on_path {Feature : Type} (st : State Feature) (mapPrefix : string)
    : Prog Feature -> Prog Feature -> Prop :=
| on_path_here p : on_path st mapPrefix p p
| on_path_step layerName attr value k x q :
    store st !! cache_key (mapPrefix +:+ layerName) attr value = Some x ->
    on_path st mapPrefix (k x) q ->
    on_path st mapPrefix (GetFeature layerName attr value k) q.

(** A trace of callbacks answering with [results], and of continuations. *)
Definition answers_with {Feature : Type} (results : nat -> FetchResult Feature)
    (tr : list (Event Feature)) : Prop :=
  Forall (fun e => match e with
                   | EvFeatures fid result => result = results fid
                   | EvThen _ => True
                   | _ => False
                   end) tr.

(** Every request of a promise list is answered, in the order of the list. *)
Definition answer_all {Feature : Type} (results : nat -> FetchResult Feature)
    (promises : list nat) (st : State Feature) : State Feature :=
  foldl (fun s fid => getFeatures_callback fid (results fid) s) st promises.

(** * TimeManager: the animation timer and the time dimensions

    The handlers of the [TimeManager] component that keep the animation
    going: [toggleTimeEnabled], [animationButtonClicked], [advanceAnimation],
    [onClose], the reset in [componentDidUpdate], and
    [updateLayerTimeDimensions]. Time values are timestamps in milliseconds;
    an empty or invalid timestamp is [None]. [setInterval] and
    [clearInterval] act on the set of intervals that are running. *)
Module TimeManager.

Record State := mkState {
  animationActive : bool;
  animationSpeed : Z;
  animationSpeedUnit : string;
  timeEnabled : bool;
  layerDimensions : gmap string (list string);
  timeValues : list Z;
  currentTimestamp : option Z;
  settingsPopup : bool
}.

(** [TimeManager.defaultState] *)
Definition defaultState : State :=
  mkState false 1 "d" false ∅ [] None false.

(** The component: [props.active], [this.state], [this.animationTimer], and
    around it the intervals that are running and the next identifier
    [setInterval] hands out. *)
Record Component := mkComponent {
  active : bool;
  state : State;
  animationTimer : option nat;
  running : gset nat;
  next_id : nat
}.

Definition mounted : Component := mkComponent false defaultState None ∅ 0.

(** [clearInterval(this.animationTimer)]: [null] clears nothing. *)
Definition clearInterval (timer : option nat) (ids : gset nat) : gset nat :=
  match timer with
  | Some id => ids ∖ {[id]}
  | None => ids
  end.

(** [(+timeValues[0]) || 0] *)
Definition first_or_zero (values : list Z) : Z :=
  match values with
  | v :: _ => v
  | [] => 0%Z
  end.

(** [toggleTimeEnabled] *)
Definition toggleTimeEnabled (enabled : bool) (c : Component) : Component :=
  let st := state c in
  mkComponent (active c)
    (mkState false (animationSpeed st) (animationSpeedUnit st) enabled
             (layerDimensions st) (timeValues st)
             (Some (first_or_zero (timeValues st))) (settingsPopup st))
    None (clearInterval (animationTimer c) (running c)) (next_id c).

Definition set_animation (act : bool) (ts : option Z) (st : State) : State :=
  mkState act (animationSpeed st) (animationSpeedUnit st) (timeEnabled st)
          (layerDimensions st) (timeValues st) ts (settingsPopup st).

(** [animationButtonClicked] *)
Definition animationButtonClicked (action : string) (c : Component) : Component :=
  let st := state c in
  if String.eqb action "rewind" then
    mkComponent (active c)
      (set_animation false (Some (first_or_zero (timeValues st))) st)
      None (clearInterval (animationTimer c) (running c)) (next_id c)
  else if String.eqb action "stop" then
    mkComponent (active c) (set_animation false (currentTimestamp st) st)
      None (clearInterval (animationTimer c) (running c)) (next_id c)
  else if String.eqb action "play" then
    mkComponent (active c) (set_animation true (currentTimestamp st) st)
      (Some (next_id c)) ({[next_id c]} ∪ running c) (S (next_id c))
  else c.

(** The interval the component remembers is the one that is running; an
    animation that is displayed as active has its interval; and while time is
    enabled and no animation is active, none is left over. *)
Definition timer_kept (c : Component) : Prop :=
  running c = match animationTimer c with Some id => {[id]} | None => ∅ end
  /\ (animationActive (state c) = true -> is_Some (animationTimer c))
  /\ (is_Some (animationTimer c) ->
      animationActive (state c) = true \/ timeEnabled (state c) = false).

Section Animation.

(** [dayjs(ts).add(speed, unit)], as a timestamp. *)
Variable add : Z -> Z -> string -> Z.

(** [advanceAnimation]. A comparison with an invalid or missing time value
    is false. *)
Definition advanceAnimation (c : Component) : Component :=
  let st := state c in
  let newday :=
    match currentTimestamp st with
    | Some ts => Some (add ts (animationSpeed st) (animationSpeedUnit st))
    | None => None
    end in
  match newday, last (timeValues st) with
  | Some n, Some lastday =>
      if (lastday <? n)%Z then
        mkComponent (active c) (set_animation false (Some lastday) st)
          None (clearInterval (animationTimer c) (running c)) (next_id c)
      else
        mkComponent (active c) (set_animation (animationActive st) (Some n) st)
          (animationTimer c) (running c) (next_id c)
  | _, _ =>
      mkComponent (active c) (set_animation (animationActive st) newday st)
        (animationTimer c) (running c) (next_id c)
  end.

(** [onClose]: [toggleTimeEnabled(false)]; the [setCurrentTask(null)] that
    follows comes back as a change of [props.active]. *)
Definition onClose (c : Component) : Component := toggleTimeEnabled false c.

(** [componentDidUpdate] after a change of [props.active]: the state is reset
    when the component is deactivated. *)
Definition set_active (a : bool) (c : Component) : Component :=
  mkComponent a (if negb a && active c then defaultState else state c)
              (animationTimer c) (running c) (next_id c).

(** [componentDidUpdate] after a change of [props.layerUUIds]: new time data. *)
Definition set_timeData (dims : gmap string (list string)) (values : list Z)
    (c : Component) : Component :=
  let st := state c in
  mkComponent (active c)
    (mkState (animationActive st) (animationSpeed st) (animationSpeedUnit st)
             (timeEnabled st) dims values (currentTimestamp st) (settingsPopup st))
    (animationTimer c) (running c) (next_id c).

(** [pickCurrentTimestamp], with the timestamp computed from the position of
    the click. *)
Definition pickCurrentTimestamp (ts : Z) (c : Component) : Component :=
  if timeEnabled (state c) then
    mkComponent (active c)
      (set_animation (animationActive (state c)) (Some ts) (state c))
      (animationTimer c) (running c) (next_id c)
  else c.

(** The [setState] calls of the options menu: the popup, the speed and its
    unit. *)
Definition set_options (popup : bool) (speed : Z) (unit : string) (c : Component)
    : Component :=
  let st := state c in
  mkComponent (active c)
    (mkState (animationActive st) speed unit (timeEnabled st) (layerDimensions st)
             (timeValues st) (currentTimestamp st) popup)
    (animationTimer c) (running c) (next_id c).

(** What [render] and [renderBody] let the user reach: nothing while the
    component is inactive, the body with fewer than two time values has no
    controls, the button bar is disabled while time is disabled, "stop" is
    disabled while no animation runs and "play" while one does; the speed and
    its unit can be set while the options popup is open. *)
Definition body_shown (c : Component) : bool :=
  active c && (2 <=? length (timeValues (state c))).

Definition button_enabled (key : string) (c : Component) : bool :=
  body_shown c && timeEnabled (state c)
  && (if String.eqb key "rewind" then true
      else if String.eqb key "stop" then animationActive (state c)
      else if String.eqb key "play" then negb (animationActive (state c))
      else false).

Inductive Event :=
| Toggle (enabled : bool)
| Button (key : string)
| Tick (id : nat)
| Close
| Active (a : bool)
| TimeData (dims : gmap string (list string)) (values : list Z)
| Pick (ts : Z)
| Settings
| Speed (value : Z)
| SpeedUnit (unit : string).

(** One event; an interval fires only while it is running. *)
Definition step (e : Event) (c : Component) : Component :=
  match e with
  | Toggle enabled => if body_shown c then toggleTimeEnabled enabled c else c
  | Button key => if button_enabled key c then animationButtonClicked key c else c
  | Tick id => if bool_decide (id ∈ running c) then advanceAnimation c else c
  | Close => if active c then onClose c else c
  | Active a => set_active a c
  | TimeData dims values => set_timeData dims values c
  | Pick ts => if body_shown c then pickCurrentTimestamp ts c else c
  | Settings => if body_shown c then set_options (negb (settingsPopup (state c)))
                  (animationSpeed (state c)) (animationSpeedUnit (state c)) c else c
  | Speed value => if body_shown c && settingsPopup (state c) then
                     set_options true value (animationSpeedUnit (state c)) c else c
  | SpeedUnit unit => if body_shown c && settingsPopup (state c) then
                        set_options true (animationSpeed (state c)) unit c else c
  end.

Definition run (tr : list Event) (c : Component) : Component :=
  foldl (fun c e => step e c) c tr.

End Animation.

(** A layer as far as [updateLayerTimeDimensions] looks at it. *)
Record Layer := mkLayer {
  id : string;
  dimensionValues : option (gmap string (option string))
}.

Inductive Error := RangeError | TypeError.

(** [res[dimension] = currentTime]. The name ["__proto__"] is an entry of
    [res] only when the copy of [layer.dimensionValues] has brought it; when
    it is none, the assignment reaches the accessor of [Object.prototype],
    which ignores a string and [undefined], and [res] stays as it is. *)
Definition assign (currentTime : option string)
    (res : gmap string (option string)) (dimension : string)
    : gmap string (option string) :=
  if bool_decide (dimension = "__proto__"%string)
     && bool_decide (res !! dimension = None)
  then res
  else <[dimension := currentTime]> res.

(** [timeDimensions[layer.id].reduce(...)] from a copy of
    [layer.dimensionValues || {}]. *)
Definition set_dimensions (currentTime : option string) (names : list string)
    (l : Layer) : gmap string (option string) :=
  foldl (assign currentTime) (default ∅ (dimensionValues l)) names.

(** [layer.id in timeDimensions], for an object [timeDimensions] that is given
    by its entries and has the prototype [Object.prototype]: the test finds an
    entry, or else a member of the prototype, which has no [reduce]. *)
Inductive Found :=
| Own (names : list string)
| Inherited
| Missing.

Definition find_dimensions (timeDimensions : gmap string (list string))
    (i : string) : Found :=
  match timeDimensions !! i with
  | Some names => Own names
  | None => if bool_decide (i ∈ object_prototype_names) then Inherited
            else Missing
  end.

Definition Call : Type := string * gmap string (option string).

(** The [forEach] over the layers: the calls of [setLayerDimensions] made, and
    the [TypeError] of [timeDimensions[layer.id].reduce] that ends the loop
    at a layer whose id is found on the prototype. *)
Fixpoint update_layers (currentTime : option string)
    (timeDimensions : gmap string (list string)) (layers : list Layer)
    : list Call * option Error :=
  match layers with
  | [] => ([], None)
  | l :: layers =>
      match find_dimensions timeDimensions (id l) with
      | Own names =>
          let out := update_layers currentTime timeDimensions layers in
          ((id l, set_dimensions currentTime names l) :: out.1, out.2)
      | Inherited => ([], Some TypeError)
      | Missing => update_layers currentTime timeDimensions layers
      end
  end.

(** [new Date(currentTimestamp).toISOString()] if time is enabled: the text, or
    [None] for the [RangeError] on the empty timestamp and on a timestamp that
    is no valid date. [currentTime] is [undefined] while time is disabled. *)
Definition current_time (toISOString : Z -> option string) (timeEnabled : bool)
    (currentTimestamp : option Z) : option (option string) :=
  if timeEnabled then
    match currentTimestamp with
    | Some ts => match toISOString ts with
                 | Some text => Some (Some text)
                 | None => None
                 end
    | None => None
    end
  else Some None.

(** [updateLayerTimeDimensions]: the calls of [setLayerDimensions] it makes and
    the error it throws, if any. *)
Definition updateLayerTimeDimensions (toISOString : Z -> option string)
    (layers : list Layer) (timeEnabled : bool)
    (timeDimensions : gmap string (list string)) (currentTimestamp : option Z)
    : list Call * option Error :=
  match current_time toISOString timeEnabled currentTimestamp with
  | Some currentTime => update_layers currentTime timeDimensions layers
  | None => ([], Some RangeError)
  end.

(** The call made for a layer that has an entry. *)
Definition call_of (currentTime : option string)
    (timeDimensions : gmap string (list string)) (l : Layer) : option Call :=
  match timeDimensions !! id l with
  | Some names => Some (id l, set_dimensions currentTime names l)
  | None => None
  end.

End TimeManager.

(** * ZoomButton: the zoom level a click asks for

    The state [componentDidUpdate] sets and [buttonClicked] of the
    [ZoomButton] component; zoom levels and the direction are numbers. *)
Module ZoomButton.

(** A number: a finite one, as a rational, an infinity or [NaN]. The sum of
    two finite numbers is taken as exact, as it is for the integers below
    [2 ^ 53] and the halves between them. A prop that is not given compares
    and adds as [NaN]. *)
Inductive Number :=
| Fin (q : Qcanon.Qc)
| PosInf
| NegInf
| NaN.

Definition int (z : Z) : Number := Fin (Qc_of_Z z).

(** [x < y] *)
Definition lt (x y : Number) : bool :=
  match x, y with
  | NaN, _ | _, NaN => false
  | Fin p, Fin q => match Qcanon.Qccompare p q with Lt => true | _ => false end
  | Fin _, PosInf => true
  | Fin _, NegInf => false
  | PosInf, _ => false
  | NegInf, NegInf => false
  | NegInf, _ => true
  end.

(** [x <= y] *)
Definition le (x y : Number) : bool :=
  match x, y with
  | NaN, _ | _, NaN => false
  | Fin p, Fin q => match Qcanon.Qccompare p q with Gt => false | _ => true end
  | Fin _, PosInf => true
  | Fin _, NegInf => false
  | PosInf, PosInf => true
  | PosInf, _ => false
  | NegInf, _ => true
  end.

(** [x + y] *)
Definition add (x y : Number) : Number :=
  match x, y with
  | NaN, _ | _, NaN => NaN
  | Fin p, Fin q => Fin (Qcanon.Qcplus p q)
  | PosInf, NegInf | NegInf, PosInf => NaN
  | PosInf, _ | _, PosInf => PosInf
  | NegInf, _ | _, NegInf => NegInf
  end.

Record Props := mkProps {
  currentTask : option string;
  currentZoom : Number;
  direction : Number;
  enableZoomByBoxSelection : bool;
  maxZoom : Number
}.

Record State := mkState {
  disabled : bool;
  task : option string
}.

Inductive Action :=
| SetCurrentTask (task : option string)
| ChangeZoomLevel (zoom : Number).

(** The [setState] of [componentDidUpdate] when the props have changed:
    [currentZoom >= maxZoom] is [maxZoom <= currentZoom]. *)
Definition updated_state (props : Props) : option State :=
  if lt (int 0) (direction props) then
    Some (mkState (le (maxZoom props) (currentZoom props)) (Some "ZoomIn"%string))
  else if lt (direction props) (int 0) then
    Some (mkState (le (currentZoom props) (int 0)) (Some "ZoomOut"%string))
  else None.

(** [buttonClicked] *)
Definition buttonClicked (props : Props) : Action :=
  if enableZoomByBoxSelection props then
    let task := if lt (int 0) (direction props) then "ZoomIn"%string
                else "ZoomOut"%string in
    SetCurrentTask (if bool_decide (currentTask props = Some task) then None
                    else Some task)
  else ChangeZoomLevel (add (currentZoom props) (direction props)).

End ZoomButton.

(** ** Concrete settings for the components *)

(** A step of [speed] seconds, whatever the unit. *)
Definition tm_add (ts speed : Z) (unit : string) : Z := (ts + 1000 * speed)%Z.

(** The window is opened, three time values arrive, time is enabled and the
    animation started. *)
Definition tm_trace : list TimeManager.Event :=
  [TimeManager.Active true;
   TimeManager.TimeData ∅ [0; 1000; 1500]%Z;
   TimeManager.Toggle true;
   TimeManager.Button "play"].

Definition tm_layers : list TimeManager.Layer :=
  [TimeManager.mkLayer "roads" None;
   TimeManager.mkLayer "floods"
     (Some {[ "TIME"%string := Some "2020-01-01"%string;
              "ELEVATION"%string := Some "0"%string ]})].

Definition zb_props : ZoomButton.Props :=
  ZoomButton.mkProps None (ZoomButton.int 3) (ZoomButton.int 1) false
    (ZoomButton.int 10).

(** The map stands between two levels, at 9.5 of 10. *)
Definition zb_between : ZoomButton.Props :=
  ZoomButton.mkProps None
    (ZoomButton.Fin (Qcanon.Q2Qc (QArith_base.Qmake 19 2)))
    (ZoomButton.int 1) false (ZoomButton.int 10).


(** * Properties *)

Section Properties.

Context {Feature : Type}.
Variable grammar : Feature -> bool -> string -> Prog Feature.

Implicit Types (st : State Feature) (t : Task Feature) (b : Batch Feature).
Implicit Types (p : Prog Feature) (promises : list nat) (key : string).

(** ** Lifting a property of the elementary state changes to the evaluators *)

Section Lifting.

Variable R : State Feature -> State Feature -> Prop.
Hypothesis R_refl : forall st, R st st.
Hypothesis R_trans : forall st1 st2 st3, R st1 st2 -> R st2 st3 -> R st1 st3.
Hypothesis R_dispatch : forall key f st,
  store st !! key = None -> key ∉ requests st -> req_key f = key ->
  R st (dispatch key f st).
Hypothesis R_fed : forall text st, R st (log_fed text st).
Hypothesis R_warn : forall msg st, R st (warn msg st).
Hypothesis R_waiter : forall w st, R st (add_waiter w st).
Hypothesis R_callback : forall cb st, R st (call_callback cb st).
Hypothesis R_remove : forall i st, R st (remove_waiter i st).
Hypothesis R_result : forall key result st,
  key ∈ requests st -> R st (store_result key result st).
Hypothesis R_accept : forall fid st, R st (accept fid st).
Hypothesis R_clear : forall st, R st (clear st).
Hypothesis R_features : forall fid f result st,
  fetches st !! fid = Some f -> R st (getFeatures_callback fid result st).

Lemma get_R editIface dataset mapCrs attr value promises st :
  R st (get editIface dataset mapCrs attr value promises st).1.1.
Proof.
  unfold get. destruct (store st !! _) eqn:Hs; simpl; [apply R_refl|].
  case_decide; simpl; [apply R_refl|]. by apply R_dispatch.
Qed.

Lemma run_prog_R editIface mapPrefix mapCrs p : forall promises st,
  R st (run_prog editIface mapPrefix mapCrs p promises st).1.1.
Proof.
  induction p as [r| |l a v k IH]; intros promises st; simpl; try apply R_refl.
  pose proof (get_R editIface (mapPrefix +:+ l) mapCrs a v promises st) as Hg.
  destruct (get _ _ _ _ _ _ _) as [[st' promises'] r]. simpl in Hg.
  eapply R_trans; [exact Hg|]. apply IH.
Qed.

Lemma try_feed_R feature editIface mapPrefix mapCrs asFilter expr promises st :
  R st (try_feed grammar feature editIface mapPrefix mapCrs asFilter expr promises st).1.1.
Proof.
  unfold try_feed.
  pose proof (run_prog_R editIface mapPrefix mapCrs
    (grammar feature asFilter (replace_newline expr)) promises
    (log_fed (replace_newline expr) st)) as Hr.
  destruct (run_prog _ _ _ _ _ _) as [[st1 promises1] [v|]]; simpl in *.
  - eapply R_trans; [apply R_fed|exact Hr].
  - eapply R_trans; [apply R_fed|]. eapply R_trans; [exact Hr|apply R_warn].
Qed.

Lemma reduce_entries_R b entries : forall res promises st,
  R st (reduce_entries grammar b entries res promises st).1.1.
Proof.
  induction entries as [|[key expr] rest IH]; intros res promises st; simpl;
    [apply R_refl|].
  pose proof (try_feed_R (b_feature b) (b_editIface b) (b_mapPrefix b)
    (b_mapCrs b) (b_asFilter b) expr promises st) as Hf.
  destruct (try_feed _ _ _ _ _ _ _ _ _) as [[st1 promises1] [v|]]; simpl in Hf;
    (eapply R_trans; [exact Hf|apply IH]).
Qed.

Lemma parseExpressionsAsync_R fuel b : forall st st' m,
  parseExpressionsAsync grammar fuel b st = Some (st', m) -> R st st'.
Proof.
  induction fuel as [|fuel IH]; intros st st' m; simpl; [done|].
  pose proof (reduce_entries_R b (b_expressions b) ∅ [] st) as Hp.
  destruct (reduce_entries _ _ _ _ _ _) as [[st1 promises] results]; simpl in Hp.
  destruct promises as [|fid promises].
  - intros [= <- <-]. exact Hp.
  - destruct (parseExpressionsAsync _ _ _ _) as [[st2 m2]|] eqn:Hn; [|done].
    intros [= <- <-]. eapply R_trans; [exact Hp|]. by eapply IH.
Qed.

Lemma parseExpression_R t reevaluate st :
  R st (parseExpression grammar t reevaluate st).1.
Proof.
  unfold parseExpression.
  pose proof (try_feed_R (t_feature t) (t_editIface t) (t_mapPrefix t)
    (t_mapCrs t) (t_asFilter t) (t_expr t) [] st) as Hf.
  destruct (try_feed _ _ _ _ _ _ _ _ _) as [[st1 promises] r]; simpl in Hf.
  destruct promises; simpl.
  - destruct reevaluate; [|exact Hf]. eapply R_trans; [exact Hf|apply R_callback].
  - eapply R_trans; [exact Hf|apply R_waiter].
Qed.

Lemma step_R_call e st :
  is_clear e = false -> (forall fid result, e <> EvFeatures fid result) ->
  R st (step grammar e st).
Proof.
  destruct e as [editIface dataset mapCrs attr value|t reevaluate|b|fid result|i|];
    intros Hc Hf; [| | | |
    |discriminate Hc]; cbn [step].
  - apply get_R.
  - apply parseExpression_R.
  - destruct (parseExpressionsAsync grammar 2 b st) as [[st' m]|] eqn:Hb;
      [|apply R_refl].
    by eapply parseExpressionsAsync_R.
  - by destruct (Hf fid result).
  - unfold run_then. destruct (waiters st !! i) as [w|]; [|apply R_refl].
    destruct (ready w st); [|apply R_refl].
    eapply R_trans; [apply R_remove|apply parseExpression_R].
Qed.

Lemma store_result_R key result st : R st (store_result key result st).
Proof.
  destruct (decide (key ∈ requests st)) as [Hin|Hout]; [by apply R_result|].
  unfold store_result. rewrite decide_False by done. apply R_refl.
Qed.

Lemma step_R e st : is_clear e = false -> R st (step grammar e st).
Proof.
  intros Hc. destruct e as [| | |fid result| |]; try by apply step_R_call.
  cbn [step]. unfold getFeatures_callback.
  destruct (fetches st !! fid); [|apply R_refl].
  eapply R_trans; [apply store_result_R|apply R_accept].
Qed.

Lemma run_R tr : forall st,
  forallb (fun e => negb (is_clear e)) tr = true -> R st (run grammar tr st).
Proof.
  induction tr as [|e tr IH]; intros st; simpl; [intros _; apply R_refl|].
  intros [He Htr]%andb_true_iff. apply negb_true_iff in He.
  eapply R_trans; [by apply step_R|by apply IH].
Qed.

Lemma run_R_features tr : forall st,
  forallb (fun e => negb (is_clear e)) tr = true -> R st (run grammar tr st).
Proof.
  induction tr as [|e tr IH]; intros st; simpl; [intros _; apply R_refl|].
  intros [He Htr]%andb_true_iff. apply negb_true_iff in He.
  eapply R_trans; [|by apply IH].
  destruct e as [| | |fid result| |]; try by apply step_R_call.
  cbn [step]. destruct (fetches st !! fid) as [f|] eqn:Hf; [by eapply R_features|].
  unfold getFeatures_callback. rewrite Hf. apply R_refl.
Qed.

Lemma run_R_all tr : forall st, R st (run grammar tr st).
Proof.
  induction tr as [|e tr IH]; intros st; simpl; [apply R_refl|].
  eapply R_trans; [|apply IH].
  destruct e as [| | |fid result| |]; try by apply step_R_call.
  - cbn [step]. destruct (fetches st !! fid) as [f|] eqn:Hf; [by eapply R_features|].
    unfold getFeatures_callback. rewrite Hf. apply R_refl.
  - apply R_clear.
Qed.

Lemma run_R_clear tr : forall st, R st (run grammar tr st).
Proof.
  induction tr as [|e tr IH]; intros st; simpl; [apply R_refl|].
  eapply R_trans; [|apply IH].
  destruct (is_clear e) eqn:He; [|by apply step_R].
  destruct e; first [discriminate He | apply R_clear].
Qed.

End Lifting.

(** ** The cache *)

Lemma dispatches_dispatch key k f st :
  dispatches k (dispatch key f st)
  = dispatches k st + (if decide (req_key f = k) then 1 else 0).
Proof.
  unfold dispatches, dispatch; simpl. rewrite filter_app, length_app.
  f_equal. rewrite filter_cons, filter_nil. by case_decide.
Qed.

Lemma requested_dispatch key k f st :
  requested k st -> requested k (dispatch key f st).
Proof. unfold requested, dispatch; simpl. intros [?|?]; [left; set_solver|by right]. Qed.

Lemma requested_store_result key k result st :
  requested k st -> requested k (store_result key result st).
Proof.
  unfold requested, store_result. case_decide; [|done]. simpl.
  destruct (decide (key = k)) as [->|Hne].
  - intros _. right. rewrite lookup_insert_eq. by eexists.
  - rewrite lookup_insert_ne by done. intros [?|?]; [left; set_solver|by right].
Qed.

(** C1 (single dispatch). As long as [clear] is not called, [getFeatures] is
    invoked at most once for a key, whatever calls of [parseExpression] and
    [parseExpressionsAsync], completions and continuations take place, and
    from whatever state the cache is in (in particular the one [clear]
    leaves). *)
Theorem single_dispatch tr st key :
  forallb (fun e => negb (is_clear e)) tr = true ->
  dispatches key (run grammar tr st) <= dispatches key st + 1.
Proof.
  intros Hc.
  pose (Inv := fun n (s : State Feature) => dispatches key s = n
                          \/ (dispatches key s = S n /\ requested key s)).
  cut (forall n, Inv n st -> Inv n (run grammar tr st)).
  { intros H. specialize (H (dispatches key st) (or_introl eq_refl)).
    destruct H as [Hd|[Hd _]]; rewrite Hd; lia. }
  revert Hc.
  apply (run_R (fun s s' => forall n, Inv n s -> Inv n s')); unfold Inv.
  - done.
  - intros s1 s2 s3 H12 H23 n Hn. apply H23, H12, Hn.
  - intros k f s Hs Hr Hk n. rewrite dispatches_dispatch.
    case_decide as Hd.
    + intros [Hn|[_ [Hin|[v Hv]]]]; [|subst; congruence..].
      right. split; [lia|]. left. subst k. unfold dispatch; simpl. set_solver.
    + rewrite Nat.add_0_r. intros [?|[? ?]]; [by left|right].
      split; [done|by apply requested_dispatch].
  - done.
  - done.
  - done.
  - done.
  - done.
  - intros k result s Hin n. intros [?|[? ?]].
    + left. unfold store_result. by case_decide.
    + right. split; [|by apply requested_store_result].
      unfold store_result. by case_decide.
  - done.
Qed.

(** C3 (a pending key). A [get] for a key that is in [requests] and not in
    [store] returns [null], pushes nothing on the caller's promise list and
    changes nothing: the caller is not attached to the outstanding request. *)
Theorem get_pending editIface dataset mapCrs attr value promises st :
  cache_key dataset attr value ∈ requests st ->
  store st !! cache_key dataset attr value = None ->
  get editIface dataset mapCrs attr value promises st = (st, promises, None).
Proof. intros Hin Hs. unfold get. rewrite Hs. by rewrite decide_True. Qed.

Lemma get_resolved editIface dataset mapCrs attr value promises st v :
  store st !! cache_key dataset attr value = Some v ->
  get editIface dataset mapCrs attr value promises st = (st, promises, v).
Proof. intros Hs. unfold get. by rewrite Hs. Qed.

Lemma run_pending_unresolved tr : pending_unresolved (run grammar tr initial).
Proof.
  cut (pending_unresolved (@initial Feature)
       -> pending_unresolved (run grammar tr initial)).
  { intros H. apply H. intros key. unfold initial; simpl. set_solver. }
  apply (run_R_clear (fun s s' => pending_unresolved s -> pending_unresolved s'));
    unfold pending_unresolved; try done.
  - intros s1 s2 s3 H12 H23 H. by apply H23, H12.
  - intros k f s Hs Hr _ Hp key. unfold dispatch; simpl.
    rewrite elem_of_union, elem_of_singleton. intros [->|?]; [done|by apply Hp].
  - intros k result s Hin Hp key. unfold store_result. rewrite decide_True by done.
    simpl. rewrite elem_of_difference, elem_of_singleton. intros [? ?].
    rewrite lookup_insert_ne by done. by apply Hp.
Qed.

(** C4 (cache monotonicity). Once the store holds an outcome for a key (a
    record, or [null] for "absent"), it holds the same outcome after any
    further events other than [clear], and every [get] for that key returns
    it, dispatching nothing. *)
Theorem cache_monotone tr1 tr2 key v :
  forallb (fun e => negb (is_clear e)) tr2 = true ->
  store (run grammar tr1 initial) !! key = Some v ->
  store (run grammar tr2 (run grammar tr1 initial)) !! key = Some v
  /\ forall editIface dataset mapCrs attr value promises,
       cache_key dataset attr value = key ->
       get editIface dataset mapCrs attr value promises
           (run grammar tr2 (run grammar tr1 initial))
       = (run grammar tr2 (run grammar tr1 initial), promises, v).
Proof.
  intros Hc Hv.
  assert (store (run grammar tr2 (run grammar tr1 initial)) !! key = Some v) as Hv'.
  { cut (pending_unresolved (run grammar tr1 initial)
         /\ store (run grammar tr1 initial) !! key = Some v
         -> pending_unresolved (run grammar tr2 (run grammar tr1 initial))
            /\ store (run grammar tr2 (run grammar tr1 initial)) !! key = Some v).
    { intros H. apply H. split; [apply run_pending_unresolved|done]. }
    revert Hc.
    apply (run_R (fun s s' => pending_unresolved s /\ store s !! key = Some v
                              -> pending_unresolved s' /\ store s' !! key = Some v));
      unfold pending_unresolved; try done.
    - intros s1 s2 s3 H12 H23 H. by apply H23, H12.
    - intros k f s Hs Hr _ [Hp Hk]. split; [|done]. intros key'. unfold dispatch; simpl.
      rewrite elem_of_union, elem_of_singleton. intros [->|?]; [done|by apply Hp].
    - intros k result s Hin [Hp Hk]. unfold store_result. rewrite decide_True by done.
      simpl. split.
      + intros key'. rewrite elem_of_difference, elem_of_singleton. intros [? ?].
        rewrite lookup_insert_ne by done. by apply Hp.
      + rewrite lookup_insert_ne; [done|]. intros ->. apply Hp in Hin. congruence. }
  split; [done|]. intros editIface dataset mapCrs attr value promises <-.
  by apply get_resolved.
Qed.

Lemma occurs_append c a rest : occurs c (a +:+ String c rest) = true.
Proof.
  induction a as [|c' a IH].
  - change (Ascii.eqb c c || occurs c rest = true). by rewrite Ascii.eqb_refl.
  - change (Ascii.eqb c' c || occurs c (a +:+ String c rest) = true).
    rewrite IH. by destruct (Ascii.eqb c' c).
Qed.

Lemma cache_key_own dataset attr value :
  cache_key dataset attr value ∉ object_prototype_names.
Proof.
  intros Hin.
  assert (occurs ":" (cache_key dataset attr value) = false) as Hno.
  { revert Hin. generalize (cache_key dataset attr value). intros key Hin.
    unfold object_prototype_names in Hin.
    repeat (apply elem_of_cons in Hin as [->|Hin]; [reflexivity|]).
    by apply elem_of_nil in Hin. }
  unfold cache_key in Hno.
  change (occurs ":" (dataset +:+ String ":" (attr +:+ String ":" value)) = false)
    in Hno.
  by rewrite occurs_append in Hno.
Qed.

Lemma run_pending_until_callback tr fid f :
  forallb (fun e => negb (is_clear e)) tr = true ->
  fetches (run grammar tr initial) !! fid = Some f ->
  fid ∉ accepted (run grammar tr initial) ->
  req_key f ∈ requests (run grammar tr initial).
Proof.
  intros Hc.
  pose (Inv := fun s : State Feature =>
    (forall i fi, fetches s !! i = Some fi -> requested (req_key fi) s)
    /\ (forall i j fi fj, fetches s !! i = Some fi -> fetches s !! j = Some fj ->
          req_key fi = req_key fj -> i = j)
    /\ (forall i fi, fetches s !! i = Some fi -> i ∉ accepted s ->
          req_key fi ∈ requests s)).
  cut (Inv initial -> Inv (run grammar tr initial)).
  { intros H. destruct H as (_ & _ & H3); [|by apply H3].
    unfold Inv, initial; simpl. repeat split; intros *; by rewrite lookup_nil. }
  revert Hc. apply (run_R_features (fun s s' => Inv s -> Inv s')); unfold Inv;
    try done.
  - intros s1 s2 s3 H12 H23 H. by apply H23, H12.
  - intros key f' s Hs Hr Hk (I1 & I2 & I3).
    assert (~ requested key s) as Hnew.
    { intros [?|[? ?]]; [done|congruence]. }
    assert (forall i fi, fetches (dispatch key f' s) !! i = Some fi ->
              fetches s !! i = Some fi \/ (i = length (fetches s) /\ fi = f'))
      as Hlook.
    { intros i fi. unfold dispatch; simpl.
      intros [?|[Hge Hi]]%lookup_app_Some; [by left|right].
      destruct (i - length (fetches s)) as [|n] eqn:En; [|done].
      injection Hi as <-. split; [lia|done]. }
    split; [|split].
    + intros i fi [Hi|[-> ->]]%Hlook.
      * apply requested_dispatch. by eapply I1.
      * rewrite Hk. left. unfold dispatch; simpl.
        apply elem_of_union_l. by apply elem_of_singleton.
    + intros i j fi fj [Hi|[-> ->]]%Hlook [Hj|[-> ->]]%Hlook Heq.
      * by eapply I2.
      * destruct Hnew. rewrite <- Hk, <- Heq. by eapply I1.
      * destruct Hnew. rewrite <- Hk, Heq. by eapply I1.
      * done.
    + intros i fi [Hi|[-> ->]]%Hlook Hacc; unfold dispatch; simpl.
      * apply elem_of_union_r. by eapply I3.
      * rewrite Hk. apply elem_of_union_l. by apply elem_of_singleton.
  - intros i f' result s Hi (I1 & I2 & I3). unfold getFeatures_callback.
    rewrite Hi. unfold store_result.
    destruct (decide (req_key f' ∈ requests s)) as [Hin|Hout]; simpl.
    + split; [|split].
      * intros j fj Hj. specialize (I1 j fj Hj).
        pose proof (requested_store_result (req_key f') (req_key fj) result s I1)
          as Hreq.
        unfold store_result in Hreq. by rewrite decide_True in Hreq.
      * done.
      * intros j fj Hj Hacc.
        apply not_elem_of_union in Hacc as [Hne%not_elem_of_singleton Hacc].
        apply elem_of_difference. split; [by eapply I3|].
        intros Heq%elem_of_singleton. apply Hne. by eapply I2.
    + split; [done|]. split; [done|]. intros j fj Hj Hacc.
      apply not_elem_of_union in Hacc as [_ Hacc]. by eapply I3.
Qed.

(** A request is pending from its dispatch to the first run of its callback,
    as long as [clear] is not called. *)
Lemma pending_until_callback tr fid f :
  forallb (fun e => negb (is_clear e)) tr = true ->
  fetches (run grammar tr initial) !! fid = Some f ->
  fid ∉ accepted (run grammar tr initial) ->
  req_key f ∈ requests (run grammar tr initial).
Proof. apply run_pending_until_callback. Qed.

(** C7, amended (outcome of a completed request). When the callback of a
    request runs while the key of the request is pending, the store receives
    the feature of a result that holds exactly one, and [null] for any other
    result (no result, no [features], none or several features); the key
    leaves [requests], the promise is accepted, and any later [get] for the
    request's triple returns the stored outcome ([null] for "absent") without
    dispatching. The key is pending at the first run of the callback of every
    request as long as [clear] has not been called. A callback that finds its
    key not pending stores nothing and removes nothing; its promise is
    accepted all the same. *)
Theorem fetch_outcome_stored fid f result st :
  fetches st !! fid = Some f ->
  (req_key f ∈ requests st ->
     store (getFeatures_callback fid result st) !! req_key f
       = Some (match result with ResFeatures [x] => Some x | _ => None end)
     /\ (req_key f ∉ requests (getFeatures_callback fid result st))
     /\ fid ∈ accepted (getFeatures_callback fid result st)
     /\ forall editIface mapCrs promises,
          get editIface (f_dataset f) mapCrs (f_attr f) (f_value f) promises
              (getFeatures_callback fid result st)
          = (getFeatures_callback fid result st, promises,
             match result with ResFeatures [x] => Some x | _ => None end))
  /\ (forall tr,
        forallb (fun e => negb (is_clear e)) tr = true ->
        st = run grammar tr initial ->
        fid ∉ accepted st ->
        req_key f ∈ requests st)
  /\ (req_key f ∉ requests st ->
      store (getFeatures_callback fid result st) = store st
      /\ requests (getFeatures_callback fid result st) = requests st
      /\ fid ∈ accepted (getFeatures_callback fid result st)).
Proof.
  intros Hf. split; [|split].
  - intros Hin.
    assert (outcome result = match result with ResFeatures [x] => Some x | _ => None end)
      as Hout by (by destruct result as [| |[|x [|y l]]]).
    assert (store (getFeatures_callback fid result st) !! req_key f
            = Some (match result with ResFeatures [x] => Some x | _ => None end))
      as Hs.
    { unfold getFeatures_callback. rewrite Hf. unfold store_result.
      rewrite decide_True by done. simpl. rewrite <- Hout. apply lookup_insert_eq. }
    split; [done|]. split; [|split].
    + unfold getFeatures_callback. rewrite Hf. unfold store_result.
      rewrite decide_True by done. simpl.
      intros [_ Hn]%elem_of_difference. by apply Hn, elem_of_singleton.
    + unfold getFeatures_callback. rewrite Hf. simpl.
      apply elem_of_union_l. by apply elem_of_singleton.
    + intros editIface mapCrs promises. by apply get_resolved.
  - intros tr Hc -> Hacc. by apply (run_pending_until_callback tr fid f).
  - intros Hout. unfold getFeatures_callback. rewrite Hf. unfold store_result.
    rewrite decide_False by done. simpl. split; [done|]. split; [done|].
    apply elem_of_union_l. by apply elem_of_singleton.
Qed.

Lemma run_fetches_prefix tr : forall st fid f,
  forallb (fun e => negb (is_clear e)) tr = true ->
  fetches st !! fid = Some f -> fetches (run grammar tr st) !! fid = Some f.
Proof.
  intros st fid f Hc. revert fid f. revert Hc.
  apply (run_R (fun s s' => forall fid f,
    fetches s !! fid = Some f -> fetches s' !! fid = Some f)); try done.
  - intros s1 s2 s3 H12 H23 fid f H. by apply H23, H12.
  - intros k f s _ _ _ fid f' H. unfold dispatch; simpl. by apply lookup_app_l_Some.
  - intros k result s Hin fid f. unfold store_result. by case_decide.
Qed.

Lemma run_pending_dispatched tr key n : forall st,
  forallb (fun e => negb (is_clear e)) tr = true ->
  n <= dispatches key st ->
  (key ∈ requests st -> n < dispatches key st) ->
  n <= dispatches key (run grammar tr st)
  /\ (key ∈ requests (run grammar tr st) -> n < dispatches key (run grammar tr st)).
Proof.
  intros st Hc H1 H2.
  cut (n <= dispatches key st /\ (key ∈ requests st -> n < dispatches key st)
       -> n <= dispatches key (run grammar tr st)
          /\ (key ∈ requests (run grammar tr st)
              -> n < dispatches key (run grammar tr st))).
  { intros H. by apply H. }
  revert Hc.
  apply (run_R (fun s s' =>
    n <= dispatches key s /\ (key ∈ requests s -> n < dispatches key s)
    -> n <= dispatches key s' /\ (key ∈ requests s' -> n < dispatches key s')));
    try done.
  - intros s1 s2 s3 H12 H23 H. by apply H23, H12.
  - intros k f s _ _ Hk [Hle Hlt]. rewrite dispatches_dispatch.
    unfold dispatch; simpl. case_decide as Hd.
    + split; [lia|intros _; lia].
    + rewrite Nat.add_0_r. split; [done|]. intros Hin. apply Hlt.
      apply elem_of_union in Hin as [Hin%elem_of_singleton|Hin]; [congruence|done].
  - intros k result s Hin [Hle Hlt]. unfold store_result.
    rewrite decide_True by done. unfold dispatches; simpl. split; [done|].
    intros Hk. apply Hlt. by apply elem_of_difference in Hk as [Hk _].
Qed.

(** C10, amended (a completion that arrives after [clear]). If the key of a
    request made before [clear] has not been requested again since the
    [clear], the request's callback writes nothing into the new store and
    leaves the new pending set as it is; its promise is accepted all the same. *)
Theorem stale_completion_noop st tr fid f result :
  fetches st !! fid = Some f ->
  forallb (fun e => negb (is_clear e)) tr = true ->
  dispatches (req_key f) (run grammar tr (clear st)) = dispatches (req_key f) st ->
  store (getFeatures_callback fid result (run grammar tr (clear st)))
    = store (run grammar tr (clear st))
  /\ requests (getFeatures_callback fid result (run grammar tr (clear st)))
    = requests (run grammar tr (clear st))
  /\ fid ∈ accepted (getFeatures_callback fid result (run grammar tr (clear st))).
Proof.
  intros Hf Hc Hd.
  assert (fetches (run grammar tr (clear st)) !! fid = Some f) as Hf'.
  { by apply run_fetches_prefix. }
  assert (req_key f ∉ requests (run grammar tr (clear st))) as Hout.
  { destruct (run_pending_dispatched tr (req_key f) (dispatches (req_key f) st)
                (clear st) Hc) as [_ Hlt].
    - done.
    - unfold clear; simpl. set_solver.
    - intros Hin. apply Hlt in Hin. lia. }
  unfold getFeatures_callback. rewrite Hf'. unfold store_result.
  rewrite decide_False by done. simpl. repeat split. set_solver.
Qed.

(** ** One run of [feed] *)

Lemma cached_store st st' key : store st' = store st -> cached st' key = cached st key.
Proof. unfold cached. by intros ->. Qed.

Lemma requested_mono st st' key :
  store st' = store st -> requests st ⊆ requests st' ->
  requested key st -> requested key st'.
Proof. unfold requested. intros -> Hsub [?|?]; [left; set_solver|by right]. Qed.

Lemma prog_result_store mapPrefix p : forall st st',
  store st' = store st -> prog_result st' mapPrefix p = prog_result st mapPrefix p.
Proof.
  induction p as [r| |l a v k IH]; intros st st' Hs; simpl; try done.
  rewrite (cached_store st st') by done. by apply IH.
Qed.

Lemma settled_mono mapPrefix p : forall st st',
  store st' = store st -> requests st ⊆ requests st' ->
  settled st mapPrefix p -> settled st' mapPrefix p.
Proof.
  induction p as [r| |l a v k IH]; intros st st' Hs Hsub; simpl; try done.
  intros [Hr Hk]. split; [by eapply requested_mono|].
  rewrite (cached_store st st') by done. by eapply IH.
Qed.

Lemma get_spec editIface dataset mapCrs attr value promises st :
  let out := get editIface dataset mapCrs attr value promises st in
  out.2 = cached st (cache_key dataset attr value)
  /\ store out.1.1 = store st
  /\ requests st ⊆ requests out.1.1
  /\ requested (cache_key dataset attr value) out.1.1
  /\ exists fs, fetches out.1.1 = fetches st ++ fs
                /\ out.1.2 = promises ++ seq (length (fetches st)) (length fs).
Proof.
  unfold get, cached, requested. destruct (store st !! _) eqn:Hs; simpl.
  - rewrite Hs. repeat split; [set_solver|by right|].
    exists []. by rewrite !app_nil_r.
  - case_decide; simpl.
    + repeat split; [set_solver|by left|]. exists []. by rewrite !app_nil_r.
    + repeat split; [set_solver|left; set_solver|]. by eexists [_].
Qed.

Lemma get_requested editIface dataset mapCrs attr value promises st :
  requested (cache_key dataset attr value) st ->
  get editIface dataset mapCrs attr value promises st
  = (st, promises, cached st (cache_key dataset attr value)).
Proof.
  unfold get, cached, requested. destruct (store st !! _) eqn:Hs; simpl; [done|].
  intros [Hin|[? ?]]; [|done]. by rewrite decide_True.
Qed.

Lemma run_prog_spec editIface mapPrefix mapCrs p : forall promises st,
  let out := run_prog editIface mapPrefix mapCrs p promises st in
  out.2 = prog_result st mapPrefix p
  /\ store out.1.1 = store st
  /\ requests st ⊆ requests out.1.1
  /\ settled out.1.1 mapPrefix p
  /\ exists fs, fetches out.1.1 = fetches st ++ fs
                /\ out.1.2 = promises ++ seq (length (fetches st)) (length fs).
Proof.
  induction p as [r| |l a v k IH]; intros promises st; simpl.
  1, 2: repeat split; [set_solver|]; exists []; by rewrite !app_nil_r.
  pose proof (get_spec editIface (mapPrefix +:+ l) mapCrs a v promises st) as Hg.
  destruct (get _ _ _ _ _ _ _) as [[st1 promises1] r]. simpl in Hg.
  destruct Hg as (-> & Hs1 & Hr1 & Hq & fs1 & Hf1 & ->).
  specialize (IH (cached st (cache_key (mapPrefix +:+ l) a v))
                 (promises ++ seq (length (fetches st)) (length fs1)) st1).
  destruct (run_prog _ _ _ _ _ _) as [[st2 promises2] r2]. simpl in *.
  destruct IH as (-> & Hs2 & Hr2 & Hk & fs2 & Hf2 & ->).
  split; [by apply prog_result_store|]. split; [congruence|].
  split; [set_solver|]. split.
  - split; [by eapply requested_mono|]. by rewrite (cached_store st st2) by congruence.
  - exists (fs1 ++ fs2). rewrite Hf2, Hf1, <- !app_assoc. split; [done|].
    f_equal. rewrite !length_app, seq_app. done.
Qed.

Lemma run_prog_settled editIface mapPrefix mapCrs p : forall promises st,
  settled st mapPrefix p ->
  run_prog editIface mapPrefix mapCrs p promises st
  = (st, promises, prog_result st mapPrefix p).
Proof.
  induction p as [r| |l a v k IH]; intros promises st; simpl; try done.
  intros [Hr Hk]. rewrite get_requested by done. by apply IH.
Qed.

Lemma try_feed_spec feature editIface mapPrefix mapCrs asFilter expr promises st :
  let p := grammar feature asFilter (replace_newline expr) in
  let out := try_feed grammar feature editIface mapPrefix mapCrs asFilter expr promises st in
  out.2 = prog_result st mapPrefix p
  /\ store out.1.1 = store st
  /\ requests st ⊆ requests out.1.1
  /\ settled out.1.1 mapPrefix p
  /\ (exists fs, fetches out.1.1 = fetches st ++ fs
                 /\ out.1.2 = promises ++ seq (length (fetches st)) (length fs))
  /\ fed out.1.1 = fed st ++ [replace_newline expr]
  /\ warnings out.1.1
     = warnings st ++ match out.2 with Some _ => [] | None => [failed_msg expr] end
  /\ waiters out.1.1 = waiters st
  /\ callbacks out.1.1 = callbacks st
  /\ accepted out.1.1 = accepted st.
Proof.
  cbv zeta. unfold try_feed.
  pose proof (run_prog_spec editIface mapPrefix mapCrs
    (grammar feature asFilter (replace_newline expr)) promises
    (log_fed (replace_newline expr) st)) as Hr.
  pose proof (run_prog_R (fun s s' => fed s' = fed s /\ warnings s' = warnings s
      /\ waiters s' = waiters s /\ callbacks s' = callbacks s
      /\ accepted s' = accepted s)) as Hframe.
  specialize (Hframe ltac:(done) ltac:(intros s1 s2 s3; simpl; intuition congruence)
    ltac:(done) editIface mapPrefix mapCrs
    (grammar feature asFilter (replace_newline expr)) promises
    (log_fed (replace_newline expr) st)).
  destruct (run_prog _ _ _ _ _ _) as [[st1 promises1] r]. simpl in *.
  destruct Hr as (-> & Hs & Hq & Hk & Hf).
  destruct Hframe as (Hfed & Hw & Hwt & Hcb & Hacc).
  rewrite (prog_result_store _ _ st (log_fed (replace_newline expr) st)) by done.
  destruct (prog_result st mapPrefix _) eqn:Hres; simpl.
  - rewrite app_nil_r. by repeat split.
  - repeat split; try done; [|congruence].
    by apply (settled_mono _ _ st1).
Qed.

Lemma try_feed_settled feature editIface mapPrefix mapCrs asFilter expr promises st :
  settled st mapPrefix (grammar feature asFilter (replace_newline expr)) ->
  (try_feed grammar feature editIface mapPrefix mapCrs asFilter expr promises st).1.2
  = promises.
Proof.
  intros Hk. unfold try_feed.
  rewrite run_prog_settled by (by apply (settled_mono _ _ st)).
  by destruct (prog_result _ _ _).
Qed.

(** A round whose keys are all pending or resolved ends with an empty promise
    list, whatever it got [null] for. *)
Lemma settled_round_final t st :
  settled st (t_mapPrefix t) (task_prog grammar t) -> round_promises grammar t st = [].
Proof. apply try_feed_settled. Qed.

(** ** One pass over a batch *)

Lemma reduce_entries_spec b entries : forall res promises st,
  let out := reduce_entries grammar b entries res promises st in
  store out.1.1 = store st
  /\ requests st ⊆ requests out.1.1
  /\ Forall (fun e => settled out.1.1 (b_mapPrefix b) (entry_prog grammar b e.2)) entries
  /\ fed out.1.1 = fed st ++ fed_texts entries
  /\ waiters out.1.1 = waiters st
  /\ callbacks out.1.1 = callbacks st.
Proof.
  induction entries as [|[key expr] rest IH]; intros res promises st; simpl.
  { rewrite app_nil_r. by repeat split. }
  pose proof (try_feed_spec (b_feature b) (b_editIface b) (b_mapPrefix b)
    (b_mapCrs b) (b_asFilter b) expr promises st) as Hf.
  destruct (try_feed _ _ _ _ _ _ _ _ _) as [[st1 promises1] r]. simpl in Hf.
  destruct Hf as (_ & Hs & Hq & Hk & _ & Hfed & _ & Hwt & Hcb & _).
  assert (forall res',
    let out := reduce_entries grammar b rest res' promises1 st1 in
    store out.1.1 = store st
    /\ requests st ⊆ requests out.1.1
    /\ Forall (fun e => settled out.1.1 (b_mapPrefix b) (entry_prog grammar b e.2))
              ((key, expr) :: rest)
    /\ fed out.1.1 = fed st ++ replace_newline expr :: fed_texts rest
    /\ waiters out.1.1 = waiters st
    /\ callbacks out.1.1 = callbacks st) as Hgoal.
  { intros res'. specialize (IH res' promises1 st1).
    destruct (reduce_entries _ _ _ _ _ _) as [[st2 promises2] m]. simpl in *.
    destruct IH as (Hs2 & Hq2 & Hall & Hfed2 & Hwt2 & Hcb2).
    split; [congruence|]. split; [set_solver|]. split.
    - constructor; [|done]. by apply (settled_mono _ _ st1).
    - rewrite Hfed2, Hfed, <- app_assoc. split; [done|]. split; congruence. }
  destruct r; apply Hgoal.
Qed.

Lemma reduce_entries_settled b entries : forall res promises st,
  Forall (fun e => settled st (b_mapPrefix b) (entry_prog grammar b e.2)) entries ->
  (reduce_entries grammar b entries res promises st).1.2 = promises.
Proof.
  induction entries as [|[key expr] rest IH]; intros res promises st Hall; simpl;
    [done|].
  apply Forall_cons in Hall as [Hk Hall]. simpl in Hk.
  pose proof (try_feed_settled (b_feature b) (b_editIface b) (b_mapPrefix b)
    (b_mapCrs b) (b_asFilter b) expr promises st Hk) as Hp.
  pose proof (try_feed_spec (b_feature b) (b_editIface b) (b_mapPrefix b)
    (b_mapCrs b) (b_asFilter b) expr promises st) as Hf.
  destruct (try_feed _ _ _ _ _ _ _ _ _) as [[st1 promises1] r]. simpl in *.
  destruct Hf as (_ & Hs & Hq & _). subst promises1.
  assert (Forall (fun e => settled st1 (b_mapPrefix b) (entry_prog grammar b e.2)) rest)
    as Hall1.
  { eapply Forall_impl; [exact Hall|]. intros e. by apply settled_mono. }
  destruct r; by apply IH.
Qed.

Lemma reduce_entries_lookup b entries : forall res promises st key,
  NoDup entries.*1 ->
  (forall expr, (key, expr) ∈ entries ->
     (reduce_entries grammar b entries res promises st).2 !! key
     = match prog_result st (b_mapPrefix b) (entry_prog grammar b expr) with
       | Some v => Some v
       | None => res !! key
       end)
  /\ (key ∉ entries.*1 ->
      (reduce_entries grammar b entries res promises st).2 !! key = res !! key).
Proof.
  induction entries as [|[k e] rest IH]; intros res promises st key Hnd; simpl.
  { split; [|done]. intros expr Hin. by apply elem_of_nil in Hin. }
  rewrite fmap_cons in Hnd. apply NoDup_cons in Hnd as [Hk Hnd]. simpl in Hk.
  pose proof (try_feed_spec (b_feature b) (b_editIface b) (b_mapPrefix b)
    (b_mapCrs b) (b_asFilter b) e promises st) as Hf.
  destruct (try_feed _ _ _ _ _ _ _ _ _) as [[st1 promises1] r]. simpl in Hf.
  destruct Hf as (Hr & Hs & _). fold (entry_prog grammar b e) in Hr.
  assert (forall expr, prog_result st1 (b_mapPrefix b) (entry_prog grammar b expr)
                       = prog_result st (b_mapPrefix b) (entry_prog grammar b expr))
    as Hsame by (intros; by apply prog_result_store).
  split.
  - intros expr [[= <- <-]|Hin]%elem_of_cons.
    + assert (key ∉ rest.*1) as Hout by done.
      rewrite <- Hr. destruct r as [v|].
      * destruct (IH (<[key:=v]> res) promises1 st1 key Hnd) as [_ IH2].
        rewrite IH2 by done. apply lookup_insert_eq.
      * destruct (IH res promises1 st1 key Hnd) as [_ IH2]. by rewrite IH2.
    + assert (key <> k) as Hne.
      { intros ->. apply Hk. apply list_elem_of_fmap. by exists (k, expr). }
      destruct r as [v|].
      * destruct (IH (<[k:=v]> res) promises1 st1 key Hnd) as [IH1 _].
        rewrite (IH1 expr), Hsame by done. by rewrite lookup_insert_ne.
      * destruct (IH res promises1 st1 key Hnd) as [IH1 _].
        by rewrite (IH1 expr), Hsame.
  - intros [Hne Hout]%not_elem_of_cons. simpl in Hne.
    destruct r as [v|].
    + destruct (IH (<[k:=v]> res) promises1 st1 key Hnd) as [_ IH2].
      rewrite IH2 by done. by rewrite lookup_insert_ne.
    + destruct (IH res promises1 st1 key Hnd) as [_ IH2]. by rewrite IH2.
Qed.

(** Two nested passes are all a batch call makes: the second pass finds every
    key pending or resolved. The promise is resolved with the mapping of the
    first pass, and no continuation is left behind. *)
Lemma parseExpressionsAsync_fuel fuel b st :
  exists st',
    parseExpressionsAsync grammar (S (S fuel)) b st
    = Some (st', (reduce_entries grammar b (b_expressions b) ∅ [] st).2)
    /\ store st' = store st
    /\ waiters st' = waiters st
    /\ callbacks st' = callbacks st
    /\ (fed st' = fed st ++ fed_texts (b_expressions b)
        \/ fed st' = fed st ++ fed_texts (b_expressions b)
                            ++ fed_texts (b_expressions b)).
Proof.
  cbn [parseExpressionsAsync].
  pose proof (reduce_entries_spec b (b_expressions b) ∅ [] st) as H1.
  destruct (reduce_entries grammar b (b_expressions b) ∅ [] st)
    as [[st1 promises] results] eqn:E1. simpl in H1.
  destruct H1 as (Hs1 & Hq1 & Hall & Hfed1 & Hwt1 & Hcb1).
  destruct promises as [|fid promises].
  { exists st1. simpl. repeat split; try done. by left. }
  pose proof (reduce_entries_settled b (b_expressions b) ∅ [] st1 Hall) as Hp2.
  pose proof (reduce_entries_spec b (b_expressions b) ∅ [] st1) as H2.
  destruct (reduce_entries grammar b (b_expressions b) ∅ [] st1)
    as [[st2 promises2] results2] eqn:E2. simpl in *. subst promises2.
  destruct H2 as (Hs2 & Hq2 & _ & Hfed2 & Hwt2 & Hcb2).
  exists st2. repeat split; try congruence.
  right. by rewrite Hfed2, Hfed1, <- app_assoc.
Qed.

(** ** One round of [parseExpression] *)

Lemma parseExpression_spec t reevaluate st :
  let out := parseExpression grammar t reevaluate st in
  let promises := round_promises grammar t st in
  let r := prog_result st (t_mapPrefix t) (task_prog grammar t) in
  store out.1 = store st
  /\ fed out.1 = fed st ++ [replace_newline (t_expr t)]
  /\ warnings out.1
     = warnings st ++ match r with Some _ => [] | None => [failed_msg (t_expr t)] end
  /\ (exists fs, fetches out.1 = fetches st ++ fs
                 /\ promises = seq (length (fetches st)) (length fs))
  /\ match promises with
     | [] =>
         out.2 = (if t_asFilter t then VArray [default VNull r] else default VNull r)
         /\ waiters out.1 = waiters st
         /\ callbacks out.1
            = callbacks st ++ (if reevaluate then [t_reevaluateCallback t] else [])
     | _ :: _ =>
         out.2 = VNull
         /\ waiters out.1 = waiters st ++ [mkWaiter promises t]
         /\ callbacks out.1 = callbacks st
     end.
Proof.
  cbv zeta. unfold parseExpression, round_promises, task_prog.
  pose proof (try_feed_spec (t_feature t) (t_editIface t) (t_mapPrefix t)
    (t_mapCrs t) (t_asFilter t) (t_expr t) [] st) as Hf.
  destruct (try_feed _ _ _ _ _ _ _ _ _) as [[st1 promises] r]. simpl in Hf.
  destruct Hf as (-> & Hs & _ & _ & (fs & Hfs & Hp) & Hfed & Hw & Hwt & Hcb & _).
  simpl. destruct promises as [|fid promises]; simpl.
  - split; [by destruct reevaluate|]. split; [by destruct reevaluate|].
    split; [by destruct reevaluate|]. split; [exists fs; by destruct reevaluate|].
    split; [done|]. destruct reevaluate; simpl; [by rewrite Hcb|].
    by rewrite app_nil_r.
  - repeat split; try done. + by exists fs. + by rewrite Hwt.
Qed.

(** C5, amended (a failing [feed]). When [feed] throws, [parseExpression]
    logs the diagnostic and returns without throwing; if the failing run had
    dispatched no request, nothing is scheduled and the value is [null] (a
    one-element list holding [null] in filter mode); if it had dispatched
    one, the value is [null] and the call is scheduled once more. In the
    batch, the promise is resolved with a mapping that holds exactly the names
    whose [feed] did not throw, each with its result. *)
Theorem feed_failure_handled t reevaluate st :
  prog_result st (t_mapPrefix t) (task_prog grammar t) = None ->
  warnings (parseExpression grammar t reevaluate st).1
    = warnings st ++ [failed_msg (t_expr t)]
  /\ (fetches (parseExpression grammar t reevaluate st).1 = fetches st ->
      waiters (parseExpression grammar t reevaluate st).1 = waiters st
      /\ (parseExpression grammar t reevaluate st).2
         = (if t_asFilter t then VArray [VNull] else VNull))
  /\ (fetches (parseExpression grammar t reevaluate st).1 <> fetches st ->
      waiters (parseExpression grammar t reevaluate st).1
        = waiters st ++ [mkWaiter (round_promises grammar t st) t]
      /\ (parseExpression grammar t reevaluate st).2 = VNull)
  /\ forall b fuel, NoDup (b_expressions b).*1 ->
       exists st' m,
         parseExpressionsAsync grammar (S (S fuel)) b st = Some (st', m)
         /\ (forall key expr, (key, expr) ∈ b_expressions b ->
              prog_result st (b_mapPrefix b) (entry_prog grammar b expr) = None ->
              m !! key = None)
         /\ (forall key expr v, (key, expr) ∈ b_expressions b ->
              prog_result st (b_mapPrefix b) (entry_prog grammar b expr) = Some v ->
              m !! key = Some v).
Proof.
  intros Hthrow.
  destruct (parseExpression_spec t reevaluate st) as (_ & _ & Hw & (fs & Hfs & Hp) & Hm).
  rewrite Hthrow in Hw, Hm. simpl in Hm.
  split; [done|]. split; [|split].
  - intros Hsame. rewrite Hsame in Hfs.
    assert (fs = []) as -> by (by apply (app_inv_head (fetches st)); rewrite app_nil_r).
    rewrite Hp in Hm. simpl in Hm. by destruct Hm as (-> & -> & _).
  - intros Hdiff. destruct fs as [|f fs]; [by rewrite app_nil_r in Hfs|].
    rewrite Hp in Hm |- *. simpl in Hm |- *. by destruct Hm as (-> & -> & _).
  - intros b fuel Hnd.
    destruct (parseExpressionsAsync_fuel fuel b st) as (st' & Hb & _).
    exists st', (reduce_entries grammar b (b_expressions b) ∅ [] st).2.
    split; [done|]. split.
    + intros key expr Hin Hr.
      destruct (reduce_entries_lookup b (b_expressions b) ∅ [] st key Hnd) as [Hl _].
      rewrite (Hl expr Hin), Hr. apply lookup_empty.
    + intros key expr v Hin Hr.
      destruct (reduce_entries_lookup b (b_expressions b) ∅ [] st key Hnd) as [Hl _].
      by rewrite (Hl expr Hin), Hr.
Qed.

(** ** The callback *)

Lemma waiting_remove cb i w st :
  waiters st !! i = Some w ->
  waiting cb st
  = waiting cb (remove_waiter i st)
    + (if decide (t_reevaluateCallback (w_task w) = cb) then 1 else 0).
Proof.
  intros Hi. unfold waiting, remove_waiter; simpl.
  rewrite <- (take_drop_middle (waiters st) i w Hi) at 1.
  rewrite !filter_app, filter_cons, !length_app. case_decide; simpl; lia.
Qed.

Lemma parseExpression_weight cb t reevaluate st :
  let out := parseExpression grammar t reevaluate st in
  invocations cb out.1 + waiting cb out.1
  = invocations cb st + waiting cb st
    + (if decide (t_reevaluateCallback t = cb) then
         match round_promises grammar t st with
         | [] => if reevaluate then 1 else 0
         | _ :: _ => 1
         end
       else 0).
Proof.
  cbv zeta.
  destruct (parseExpression_spec t reevaluate st) as (_ & _ & _ & _ & Hm).
  unfold invocations, waiting.
  destruct (round_promises grammar t st) as [|fid promises].
  - destruct Hm as (_ & -> & ->). rewrite filter_app, length_app.
    destruct reevaluate; simpl; [|case_decide; lia].
    rewrite filter_cons, filter_nil. case_decide; simpl; lia.
  - destruct Hm as (_ & -> & ->). rewrite filter_app, length_app.
    rewrite filter_cons, filter_nil. simpl. case_decide; simpl; lia.
Qed.

Lemma step_weight cb e st :
  passes cb e = false ->
  invocations cb (step grammar e st) + waiting cb (step grammar e st)
  = invocations cb st + waiting cb st.
Proof.
  destruct e as [editIface dataset mapCrs attr value|t reevaluate|b|fid result|i|];
    cbn [step passes]; intros Hp.
  - unfold get. destruct (store st !! _); [done|]. by case_decide.
  - apply bool_decide_eq_false in Hp.
    rewrite parseExpression_weight. rewrite decide_False by done. lia.
  - destruct (parseExpressionsAsync_fuel 0 b st) as (st' & -> & _ & Hw & Hc & _).
    unfold invocations, waiting. by rewrite Hw, Hc.
  - unfold getFeatures_callback. destruct (fetches st !! fid); [|done].
    unfold store_result. by case_decide.
  - unfold run_then. destruct (waiters st !! i) as [w|] eqn:Hi; [|done].
    destruct (ready w st); [|done].
    rewrite parseExpression_weight, (waiting_remove cb i w st Hi).
    assert (invocations cb (remove_waiter i st) = invocations cb st) as -> by done.
    case_decide; [|lia].
    destruct (round_promises _ _ _); lia.
  - done.
Qed.

Lemma run_weight cb tr : forall st,
  forallb (fun e => negb (passes cb e)) tr = true ->
  invocations cb (run grammar tr st) + waiting cb (run grammar tr st)
  = invocations cb st + waiting cb st.
Proof.
  induction tr as [|e tr IH]; intros st; simpl; [done|].
  intros [He Htr]%andb_true_iff. apply negb_true_iff in He.
  rewrite IH by done. by apply step_weight.
Qed.

(** ** The key *)

Lemma append_colon_inj d : forall d' x x',
  occurs ":" d = false -> occurs ":" d' = false ->
  (d +:+ String ":" x)%string = (d' +:+ String ":" x')%string ->
  d = d' /\ x = x'.
Proof.
  induction d as [|c d IH]; intros [|c' d'] x x'; simpl.
  - intros _ _ [= ->]. done.
  - intros _ Hd' [= <- _]. done.
  - intros Hd _ [= -> _]. done.
  - intros [_ Hd]%orb_false_iff [_ Hd']%orb_false_iff [= -> Heq].
    destruct (IH d' x x' Hd Hd' Heq) as [-> ->]. done.
Qed.

Lemma cache_key_texts dataset attr value dataset' attr' value' :
  occurs ":" dataset = false -> occurs ":" attr = false ->
  occurs ":" dataset' = false -> occurs ":" attr' = false ->
  cache_key dataset attr value = cache_key dataset' attr' value'
  <-> dataset = dataset' /\ attr = attr' /\ value = value'.
Proof.
  intros Hd Ha Hd' Ha'. split; [|by intros (-> & -> & ->)].
  unfold cache_key. intros Heq.
  change (dataset +:+ String ":" (attr +:+ String ":" value)
          = dataset' +:+ String ":" (attr' +:+ String ":" value'))%string in Heq.
  apply append_colon_inj in Heq as [-> Heq]; [|done..].
  apply append_colon_inj in Heq as [-> ->]; done.
Qed.

(** C8, amended (identity of the key). The key identifies the texts of the
    three components, not the components: for strings, safe integers,
    booleans, [null] and [undefined], two triples in which the texts of the
    dataset and of the attribute hold no colon have the same key exactly when
    the texts of their components are equal one by one. Triples of strings
    (with no colon in dataset and attribute) therefore have the same key
    exactly when they are equal component by component, while the number
    [42] and the string ["42"] give one key. Equal triples always have the
    same key. *)
Theorem cache_key_structural dataset attr value dataset' attr' value' :
  forallb safe_scalar [dataset; attr; value; dataset'; attr'; value'] = true ->
  occurs ":" (to_text dataset) = false -> occurs ":" (to_text attr) = false ->
  occurs ":" (to_text dataset') = false -> occurs ":" (to_text attr') = false ->
  (scalar_key dataset attr value = scalar_key dataset' attr' value'
   <-> to_text dataset = to_text dataset' /\ to_text attr = to_text attr'
       /\ to_text value = to_text value')
  /\ (forall d a v d' a' v',
        dataset = SStr d -> attr = SStr a -> value = SStr v ->
        dataset' = SStr d' -> attr' = SStr a' -> value' = SStr v' ->
        scalar_key dataset attr value = scalar_key dataset' attr' value'
        <-> dataset = dataset' /\ attr = attr' /\ value = value')
  /\ (forall d a v d' a',
        dataset = SStr d -> attr = SStr a -> value = SStr v ->
        dataset' = SStr d' -> attr' = SStr a' ->
        to_text value' = v -> value' <> value ->
        scalar_key dataset attr value = scalar_key dataset' attr' value'
        <-> dataset = dataset' /\ attr = attr')
  /\ ((dataset, attr, value) = (dataset', attr', value') ->
      scalar_key dataset attr value = scalar_key dataset' attr' value').
Proof.
  intros _ Hd Ha Hd' Ha'.
  pose proof (cache_key_texts _ _ (to_text value) _ _ (to_text value') Hd Ha Hd' Ha')
    as Hkey.
  split; [exact Hkey|]. split; [|split].
  - intros d a v d' a' v' -> -> -> -> -> ->. unfold scalar_key in *. simpl in *.
    rewrite Hkey. split.
    + by intros (-> & -> & ->).
    + by intros ([= ->] & [= ->] & [= ->]).
  - intros d a v d' a' -> -> -> -> -> Hv _. unfold scalar_key in *. simpl in *.
    rewrite Hkey. split.
    + by intros (-> & -> & _).
    + by intros ([= ->] & [= ->]).
  - by intros [= -> -> ->].
Qed.

(** ** The text handed to the parser *)




(** ** Further properties of the cache *)

(** Between two calls of [clear] a key is requested at most once, so a trace
    with [n] calls of [clear] invokes [getFeatures] at most [n + 1] times for
    a key. *)
Theorem dispatches_bounded_by_clears tr st key :
  dispatches key (run grammar tr st) <= dispatches key st + S (clears tr).
Proof.
  pose (Inv := fun n (s : State Feature) =>
    dispatches key s + 1 <= n \/ (dispatches key s <= n /\ requested key s)).
  assert (forall e s n, is_clear e = false -> Inv n s -> Inv n (step grammar e s))
    as Hstep.
  { intros e s n He. revert n.
    apply (step_R (fun s s' => forall n, Inv n s -> Inv n s')); unfold Inv;
      try done.
    - intros s1 s2 s3 H12 H23 n Hn. apply H23, H12, Hn.
    - intros k f s0 Hs Hr Hk n. rewrite dispatches_dispatch. case_decide as Hd.
      + intros [Hn|[_ [Hin|[v Hv]]]]; [|subst; congruence..].
        right. split; [lia|]. left. subst k. unfold dispatch; simpl.
        apply elem_of_union_l. by apply elem_of_singleton.
      + rewrite Nat.add_0_r. intros [?|[? ?]]; [by left|right].
        split; [done|by apply requested_dispatch].
    - intros k result s0 Hin n. intros [?|[? ?]].
      + left. unfold store_result. by case_decide.
      + right. split; [|by apply requested_store_result].
        unfold store_result. by case_decide. }
  cut (forall tr' s n, Inv n s -> Inv (n + clears tr') (run grammar tr' s)).
  { intros H. destruct (H tr st (dispatches key st + 1)) as [Hd|[Hd _]];
      [left; lia|lia..]. }
  induction tr' as [|e tr' IH]; intros s n Hn; simpl.
  { unfold clears; simpl. by rewrite Nat.add_0_r. }
  destruct (is_clear e) eqn:He.
  - destruct e; try discriminate He.
    replace (n + clears (EvClear :: tr')) with (S n + clears tr')
      by (unfold clears; simpl; lia).
    apply IH. left. cbn [step]. unfold dispatches, clear; simpl.
    destruct Hn as [Hn|[Hn _]]; unfold dispatches in Hn; lia.
  - replace (n + clears (e :: tr')) with (n + clears tr')
      by (unfold clears; simpl; by rewrite He).
    apply IH. by apply Hstep.
Qed.

Lemma run_accepted_dispatched tr fid :
  fid ∈ accepted (run grammar tr initial) ->
  fid < length (fetches (run grammar tr initial)).
Proof.
  revert fid.
  cut ((forall fid, fid ∈ accepted (@initial Feature) -> fid < length (fetches (@initial Feature)))
       -> forall fid, fid ∈ accepted (run grammar tr initial)
                      -> fid < length (fetches (run grammar tr initial))).
  { intros H. apply H. intros fid Hin. by apply elem_of_empty in Hin. }
  apply (run_R_all (fun s s' =>
    (forall fid, fid ∈ accepted s -> fid < length (fetches s))
    -> forall fid, fid ∈ accepted s' -> fid < length (fetches s'))); try done.
  - intros s1 s2 s3 H12 H23 H. by apply H23, H12.
  - intros k f s _ _ _ H fid Hin. unfold dispatch; simpl. rewrite length_app.
    apply H in Hin. lia.
  - intros fid f result s Hf H fid' Hin. unfold getFeatures_callback in *.
    rewrite Hf in *. unfold store_result in *.
    assert (fid' ∈ {[fid]} ∪ accepted s) as Hin' by (by case_decide).
    assert (length (fetches (accept fid
      (if decide (req_key f ∈ requests s)
       then mkState (<[req_key f:=outcome result]> (store s))
              (requests s ∖ {[req_key f]}) (fetches s) (accepted s) (waiters s)
              (warnings s) (fed s) (callbacks s)
       else s))) = length (fetches s)) as -> by (by case_decide).
    apply elem_of_union in Hin' as [->%elem_of_singleton|Hin'].
    + by eapply lookup_lt_Some.
    + by apply H.
Qed.

Lemma run_requested_dispatched tr key :
  requested key (run grammar tr initial) ->
  0 < dispatches key (run grammar tr initial).
Proof.
  revert key.
  cut ((forall key, requested key (@initial Feature) -> 0 < dispatches key (@initial Feature))
       -> forall key, requested key (run grammar tr initial)
                      -> 0 < dispatches key (run grammar tr initial)).
  { intros H. apply H. intros key [Hin|[v Hv]].
    - by apply elem_of_empty in Hin.
    - unfold initial in Hv; simpl in Hv. by rewrite lookup_empty in Hv. }
  apply (run_R_clear (fun s s' =>
    (forall key, requested key s -> 0 < dispatches key s)
    -> forall key, requested key s' -> 0 < dispatches key s')); try done.
  - intros s1 s2 s3 H12 H23 H. by apply H23, H12.
  - intros k f s Hs Hr Hk H key. rewrite dispatches_dispatch.
    unfold requested, dispatch; simpl.
    intros [[->%elem_of_singleton|Hin]%elem_of_union|Hv].
    + rewrite decide_True by done. lia.
    + assert (0 < dispatches key s) by (apply H; by left). lia.
    + assert (0 < dispatches key s) by (apply H; by right). lia.
  - intros k result s Hin H key. unfold store_result. rewrite decide_True by done.
    unfold requested, dispatches; simpl.
    destruct (decide (k = key)) as [->|Hne].
    + intros _. apply (H key). by left.
    + rewrite lookup_insert_ne by done.
      intros [[Hk _]%elem_of_difference|Hv]; apply (H key); [by left|by right].
  - intros s _ key [Hin|[v Hv]].
    + unfold clear in Hin; simpl in Hin. by apply elem_of_empty in Hin.
    + unfold clear in Hv; simpl in Hv. by rewrite lookup_empty in Hv.
Qed.

(** In every state the module can reach: no key is pending and resolved at
    once; a key that is pending or resolved has had [getFeatures] invoked for
    it; and only promises of invocations that were made are accepted. *)
Theorem reachable_cache_invariant tr :
  (forall key, key ∈ requests (run grammar tr initial) ->
     store (run grammar tr initial) !! key = None)
  /\ (forall key, requested key (run grammar tr initial) ->
        0 < dispatches key (run grammar tr initial))
  /\ (forall fid, fid ∈ accepted (run grammar tr initial) ->
        fid < length (fetches (run grammar tr initial))).
Proof.
  split; [apply run_pending_unresolved|].
  split; [apply run_requested_dispatched|apply run_accepted_dispatched].
Qed.

Lemma store_result_absent key result st :
  key ∉ requests st -> store_result key result st = st.
Proof. intros Hout. unfold store_result. by rewrite decide_False. Qed.

(** A second run of the callback of a request (a duplicate answer, with
    whatever result) changes neither the store nor the pending set. *)
Theorem callback_twice fid result result' st :
  store (getFeatures_callback fid result' (getFeatures_callback fid result st))
    = store (getFeatures_callback fid result st)
  /\ requests (getFeatures_callback fid result' (getFeatures_callback fid result st))
    = requests (getFeatures_callback fid result st).
Proof.
  destruct (fetches st !! fid) as [f|] eqn:Hf.
  - assert (getFeatures_callback fid result st
            = accept fid (store_result (req_key f) result st)) as ->.
    { unfold getFeatures_callback. by rewrite Hf. }
    assert (fetches (accept fid (store_result (req_key f) result st)) !! fid = Some f)
      as Hf'.
    { unfold store_result. by case_decide. }
    assert (req_key f ∉ requests (accept fid (store_result (req_key f) result st)))
      as Hout.
    { unfold store_result. case_decide; simpl; [|done].
      intros [_ Hn]%elem_of_difference. by apply Hn, elem_of_singleton. }
    unfold getFeatures_callback at 1 2. rewrite Hf'.
    by rewrite (store_result_absent _ result' _ Hout).
  - assert (getFeatures_callback fid result st = st) as ->.
    { unfold getFeatures_callback. by rewrite Hf. }
    unfold getFeatures_callback. by rewrite Hf.
Qed.

(** Calls into the module resolve nothing: whatever is evaluated, the store
    changes only in the callback of a request and in [clear]; the pending set
    does not shrink and no promise gets accepted. *)
Theorem evaluation_resolves_nothing tr st :
  forallb is_evaluation tr = true ->
  store (run grammar tr st) = store st
  /\ requests st ⊆ requests (run grammar tr st)
  /\ accepted (run grammar tr st) = accepted st.
Proof.
  revert st. induction tr as [|e tr IH]; intros st; simpl; [done|].
  intros [He Htr]%andb_true_iff.
  assert (store (step grammar e st) = store st
          /\ requests st ⊆ requests (step grammar e st)
          /\ accepted (step grammar e st) = accepted st) as (Hs & Hr & Ha).
  { apply (step_R_call (fun s s' => store s' = store s
      /\ requests s ⊆ requests s' /\ accepted s' = accepted s)); try done.
    - intros s1 s2 s3 (? & ? & ?) (? & ? & ?).
      split; [congruence|]. split; [by transitivity (requests s2)|congruence].
    - intros k f s _ _ _. unfold dispatch; simpl. split; [done|].
      split; [apply union_subseteq_r|done].
    - by destruct e.
    - intros fid result ->. discriminate He. }
  destruct (IH (step grammar e st) Htr) as (Hs' & Hr' & Ha').
  split; [congruence|].
  split; [by transitivity (requests (step grammar e st))|congruence].
Qed.

(** ** Further properties of a round *)

Lemma run_prog_fresh editIface mapPrefix mapCrs p : forall promises st,
  let out := run_prog editIface mapPrefix mapCrs p promises st in
  exists fs,
    fetches out.1.1 = fetches st ++ fs
    /\ out.1.2 = promises ++ seq (length (fetches st)) (length fs)
    /\ NoDup (req_key <$> fs)
    /\ Forall (fun f => ~ requested (req_key f) st /\ req_key f ∈ requests out.1.1) fs
    /\ forall key, key ∈ requests out.1.1 ->
         key ∈ requests st \/ key ∈ (req_key <$> fs).
Proof.
  induction p as [r| |l a v k IH]; intros promises st; simpl.
  1, 2: exists []; rewrite !app_nil_r; repeat split;
    [constructor|constructor|by left].
  pose proof (run_prog_spec editIface mapPrefix mapCrs
    (k (cached st (cache_key (mapPrefix +:+ l) a v)))) as Hspec.
  unfold get. destruct (store st !! cache_key (mapPrefix +:+ l) a v) as [x|] eqn:Hs.
  { assert (cached st (cache_key (mapPrefix +:+ l) a v) = x) as Hx
      by (unfold cached; by rewrite Hs).
    rewrite <- Hx. apply IH. }
  assert (cached st (cache_key (mapPrefix +:+ l) a v) = None) as Hx
    by (unfold cached; by rewrite Hs).
  rewrite Hx in Hspec.
  case_decide as Hin; [apply IH|].
  set (key := cache_key (mapPrefix +:+ l) a v) in *.
  set (f := mkFetchReq editIface (mapPrefix +:+ l) mapCrs a v).
  specialize (IH None (promises ++ [length (fetches st)]) (dispatch key f st)).
  specialize (Hspec (promises ++ [length (fetches st)]) (dispatch key f st)).
  destruct (run_prog _ _ _ _ _ _) as [[st2 promises2] r2]. simpl in *.
  destruct IH as (fs & Hf & Hp & Hnd & Hall & Hreq).
  destruct Hspec as (_ & _ & Hsub & _).
  assert (key ∈ requests st2) as Hkey.
  { apply Hsub. apply elem_of_union_l. by apply elem_of_singleton. }
  exists (f :: fs). rewrite Hf, Hp, <- !app_assoc, length_app. simpl.
  split; [done|]. split; [by rewrite Nat.add_1_r|]. split; [|split].
  - constructor; [|done]. intros [f' [Hk Hf']]%list_elem_of_fmap.
    rewrite Forall_forall in Hall. destruct (Hall f' Hf') as [Hnew _].
    apply Hnew. left. rewrite <- Hk. change (req_key f) with key.
    unfold dispatch; simpl. apply elem_of_union_l. by apply elem_of_singleton.
  - constructor.
    + split; [|done]. change (req_key f) with key.
      intros [?|[? ?]]; [done|congruence].
    + eapply Forall_impl; [exact Hall|]. intros f' [Hnew Hin']. split; [|done].
      intros Hr. apply Hnew. by apply requested_dispatch.
  - intros key' Hin'. destruct (Hreq key' Hin') as [Hold|Hnew].
    + apply elem_of_union in Hold as [->%elem_of_singleton|Hold]; [|by left].
      right. apply elem_of_cons. by left.
    + right. apply elem_of_cons. by right.
Qed.



Lemma answer_all_ready results w st :
  Forall (fun fid => fid < length (fetches st)) (w_promises w) ->
  ready w (answer_all results (w_promises w) st) = true.
Proof.
  intros Hvalid.
  assert (forall ps s, length (fetches (answer_all results ps s)) = length (fetches s)
                       /\ accepted s ⊆ accepted (answer_all results ps s)) as Hmono.
  { induction ps as [|fid ps IH]; intros s; simpl; [done|].
    destruct (IH (getFeatures_callback fid (results fid) s)) as [Hl Hsub].
    assert (fetches (getFeatures_callback fid (results fid) s) = fetches s
            /\ accepted s ⊆ accepted (getFeatures_callback fid (results fid) s))
      as [Hf Ha].
    { unfold getFeatures_callback. destruct (fetches s !! fid); [|done].
      unfold store_result. case_decide; simpl; (split; [done|apply union_subseteq_r]). }
    split; [by rewrite Hl, Hf|]. by transitivity
      (accepted (getFeatures_callback fid (results fid) s)). }
  unfold ready. apply forallb_forall. intros fid Hin. apply bool_decide_eq_true.
  revert st Hvalid. induction (w_promises w) as [|fid' ps IH]; intros st Hvalid;
    [by destruct Hin|].
  apply Forall_cons in Hvalid as [Hlt Hvalid]. simpl.
  destruct Hin as [->|Hin].
  - apply (proj2 (Hmono ps _)). unfold getFeatures_callback.
    destruct (fetches st !! fid) as [f|] eqn:Hf.
    + simpl. apply elem_of_union_l. by apply elem_of_singleton.
    + apply lookup_ge_None in Hf. lia.
  - apply IH; [done|].
    eapply Forall_impl; [exact Hvalid|]. intros x Hx. simpl in Hx.
    assert (fetches (getFeatures_callback fid' (results fid') st) = fetches st) as ->;
      [|done].
    unfold getFeatures_callback. destruct (fetches st !! fid'); [|done].
    unfold store_result. by case_decide.
Qed.

(** Once every request of a promise list has been answered, a continuation
    waiting for the list is ready. *)
Theorem answered_waiter_ready results w st :
  Forall (fun fid => fid < length (fetches st)) (w_promises w) ->
  ready w (answer_all results (w_promises w) st) = true.
Proof. apply answer_all_ready. Qed.

(** A round whose keys are all pending or resolved changes nothing in the
    cache, registers nothing and returns the value computed with [null] for
    the pending keys; a repeated call returns the same value. *)
Theorem settled_round_repeats t st :
  settled st (t_mapPrefix t) (task_prog grammar t) ->
  store (parseExpression grammar t false st).1 = store st
  /\ requests (parseExpression grammar t false st).1 = requests st
  /\ fetches (parseExpression grammar t false st).1 = fetches st
  /\ waiters (parseExpression grammar t false st).1 = waiters st
  /\ callbacks (parseExpression grammar t false st).1 = callbacks st
  /\ (parseExpression grammar t false st).2
     = (let r := default VNull (prog_result st (t_mapPrefix t) (task_prog grammar t)) in
        if t_asFilter t then VArray [r] else r)
  /\ (parseExpression grammar t false (parseExpression grammar t false st).1).2
     = (parseExpression grammar t false st).2.
Proof.
  intros Hk.
  assert (forall s : State Feature,
    store s = store st -> requests s = requests st ->
    parseExpression grammar t false s
    = (match prog_result st (t_mapPrefix t) (task_prog grammar t) with
       | Some _ => log_fed (replace_newline (t_expr t)) s
       | None => warn (failed_msg (t_expr t)) (log_fed (replace_newline (t_expr t)) s)
       end,
       let r := default VNull (prog_result st (t_mapPrefix t) (task_prog grammar t)) in
       if t_asFilter t then VArray [r] else r)) as Hcall.
  { intros s Hs Hr. unfold parseExpression, try_feed.
    assert (settled (log_fed (replace_newline (t_expr t)) s) (t_mapPrefix t)
              (task_prog grammar t)) as Hk'.
    { apply (settled_mono _ _ st); [done| |done]. simpl. by rewrite Hr. }
    unfold task_prog in *. rewrite run_prog_settled by done.
    rewrite (prog_result_store _ _ st (log_fed (replace_newline (t_expr t)) s))
      by done.
    by destruct (prog_result st _ _). }
  rewrite (Hcall st eq_refl eq_refl). simpl.
  assert (forall s' : State Feature,
    s' = log_fed (replace_newline (t_expr t)) st
    \/ s' = warn (failed_msg (t_expr t)) (log_fed (replace_newline (t_expr t)) st) ->
    store s' = store st /\ requests s' = requests st /\ fetches s' = fetches st
    /\ waiters s' = waiters st /\ callbacks s' = callbacks st) as Hframe.
  { intros s' [->| ->]; by repeat split. }
  destruct (prog_result st (t_mapPrefix t) (task_prog grammar t)) as [v|] eqn:Hres.
  - destruct (Hframe _ (or_introl eq_refl)) as (Hs & Hr & Hf & Hw & Hc).
    repeat split; try done. by rewrite (Hcall _ Hs Hr).
  - destruct (Hframe _ (or_intror eq_refl)) as (Hs & Hr & Hf & Hw & Hc).
    repeat split; try done. by rewrite (Hcall _ Hs Hr).
Qed.

(** In filter mode a call returns either [null], with a re-evaluation
    scheduled, or a one-element array, with none scheduled; without filter
    mode a scheduled re-evaluation goes with [null] as well. *)
Theorem filter_result_shape t reevaluate st :
  (round_promises grammar t st <> []
   /\ (parseExpression grammar t reevaluate st).2 = VNull
   /\ length (waiters (parseExpression grammar t reevaluate st).1)
      = S (length (waiters st)))
  \/ (round_promises grammar t st = []
      /\ waiters (parseExpression grammar t reevaluate st).1 = waiters st
      /\ (t_asFilter t = true ->
          exists v, (parseExpression grammar t reevaluate st).2 = VArray [v])).
Proof.
  destruct (parseExpression_spec t reevaluate st) as (_ & _ & _ & _ & Hm).
  destruct (round_promises grammar t st) as [|fid ps].
  - right. destruct Hm as (Hv & Hw & _). split; [done|]. split; [done|].
    intros Hf. rewrite Hf in Hv. eauto.
  - left. destruct Hm as (Hv & Hw & _). split; [done|]. split; [done|].
    rewrite Hw, length_app. simpl. lia.
Qed.

(** ** Further properties of a batch call *)

Lemma try_feed_settled_state feature editIface mapPrefix mapCrs asFilter expr promises st :
  settled st mapPrefix (grammar feature asFilter (replace_newline expr)) ->
  let out := try_feed grammar feature editIface mapPrefix mapCrs asFilter expr promises st in
  requests out.1.1 = requests st /\ fetches out.1.1 = fetches st.
Proof.
  intros Hk. unfold try_feed.
  rewrite run_prog_settled by (by apply (settled_mono _ _ st)).
  by destruct (prog_result _ _ _).
Qed.

Lemma reduce_entries_settled_state b entries : forall res promises st,
  Forall (fun e => settled st (b_mapPrefix b) (entry_prog grammar b e.2)) entries ->
  let out := reduce_entries grammar b entries res promises st in
  requests out.1.1 = requests st /\ fetches out.1.1 = fetches st.
Proof.
  induction entries as [|[key expr] rest IH]; intros res promises st Hall; simpl;
    [done|].
  apply Forall_cons in Hall as [Hk Hall]. simpl in Hk.
  pose proof (try_feed_settled_state (b_feature b) (b_editIface b) (b_mapPrefix b)
    (b_mapCrs b) (b_asFilter b) expr promises st Hk) as Hst.
  pose proof (try_feed_spec (b_feature b) (b_editIface b) (b_mapPrefix b)
    (b_mapCrs b) (b_asFilter b) expr promises st) as Hf.
  destruct (try_feed _ _ _ _ _ _ _ _ _) as [[st1 promises1] r]. simpl in *.
  destruct Hf as (_ & Hs & _). destruct Hst as [Hr Hfe].
  assert (Forall (fun e => settled st1 (b_mapPrefix b) (entry_prog grammar b e.2)) rest)
    as Hall1.
  { eapply Forall_impl; [exact Hall|]. intros e. apply settled_mono; [done|].
    by rewrite Hr. }
  destruct r.
  - destruct (IH (<[key:=v]> res) promises1 st1 Hall1) as [-> ->]. done.
  - destruct (IH res promises1 st1 Hall1) as [-> ->]. done.
Qed.

Lemma batch_call_spec fuel b st :
  let first := reduce_entries grammar b (b_expressions b) ∅ [] st in
  exists st',
    parseExpressionsAsync grammar (S (S fuel)) b st = Some (st', first.2)
    /\ parseExpressionsAsync grammar 2 b st = Some (st', first.2)
    /\ store st' = store st
    /\ requests st' = requests first.1.1
    /\ fetches st' = fetches first.1.1
    /\ Forall (fun e => settled st' (b_mapPrefix b) (entry_prog grammar b e.2))
              (b_expressions b).
Proof.
  cbv zeta. cbn [parseExpressionsAsync].
  pose proof (reduce_entries_spec b (b_expressions b) ∅ [] st) as H1.
  destruct (reduce_entries grammar b (b_expressions b) ∅ [] st)
    as [[st1 promises] results] eqn:E1. simpl in H1.
  destruct H1 as (Hs1 & Hq1 & Hall & _).
  destruct promises as [|fid promises].
  { exists st1. simpl. by repeat split. }
  pose proof (reduce_entries_settled b (b_expressions b) ∅ [] st1 Hall) as Hp2.
  pose proof (reduce_entries_settled_state b (b_expressions b) ∅ [] st1 Hall) as Hst2.
  pose proof (reduce_entries_spec b (b_expressions b) ∅ [] st1) as H2.
  destruct (reduce_entries grammar b (b_expressions b) ∅ [] st1)
    as [[st2 promises2] results2] eqn:E2. simpl in *. subst promises2.
  destruct H2 as (Hs2 & _ & Hall2 & _). destruct Hst2 as [Hr2 Hf2].
  exists st2. destruct fuel; simpl; rewrite ?E2; repeat split; try done; congruence.
Qed.

(** A batch call never nests deeper than two passes, and its second pass
    requests nothing: the requests it makes and the keys it leaves pending are
    those of its first pass, whose mapping the promise is resolved with; the
    store is untouched. *)
Theorem batch_two_passes fuel b st :
  parseExpressionsAsync grammar (S (S fuel)) b st = parseExpressionsAsync grammar 2 b st
  /\ exists st',
       parseExpressionsAsync grammar 2 b st
       = Some (st', (reduce_entries grammar b (b_expressions b) ∅ [] st).2)
       /\ store st' = store st
       /\ requests st' = requests (reduce_entries grammar b (b_expressions b) ∅ [] st).1.1
       /\ fetches st' = fetches (reduce_entries grammar b (b_expressions b) ∅ [] st).1.1.
Proof.
  destruct (batch_call_spec fuel b st) as (st' & H1 & H2 & Hs & Hr & Hf & _).
  split; [congruence|]. exists st'. by repeat split.
Qed.

(** The mapping a batch promise is resolved with holds, for unique names,
    exactly the entries whose [feed] returned, each with its result: a name
    is absent when it is no entry's name or its [feed] threw. *)
Theorem batch_mapping_exact fuel b st key v :
  NoDup (b_expressions b).*1 ->
  resolved_with (parseExpressionsAsync grammar (S (S fuel)) b st) key = Some v
  <-> exists expr, (key, expr) ∈ b_expressions b
        /\ prog_result st (b_mapPrefix b) (entry_prog grammar b expr) = Some v.
Proof.
  intros Hnd. destruct (batch_call_spec fuel b st) as (st' & -> & _). simpl.
  destruct (reduce_entries_lookup b (b_expressions b) ∅ [] st key Hnd) as [Hin Hout].
  split.
  - intros Hm. destruct (decide (key ∈ (b_expressions b).*1)) as [Hk|Hk].
    + apply list_elem_of_fmap in Hk as [[k expr] [-> He]]. simpl in *.
      exists expr. split; [done|]. rewrite (Hin expr He) in Hm.
      destruct (prog_result st _ _); [done|]. by rewrite lookup_empty in Hm.
    + rewrite (Hout Hk), lookup_empty in Hm. done.
  - intros (expr & He & Hr). by rewrite (Hin expr He), Hr.
Qed.

(** After a batch call, a single call for any of the batch's expressions, in
    the batch's context, finds every key it asks for pending or resolved: it
    requests nothing and registers no continuation. *)
Theorem batch_then_round_settled fuel b st key t reevaluate :
  (key, t_expr t) ∈ b_expressions b ->
  t_feature t = b_feature b ->
  t_asFilter t = b_asFilter b ->
  t_mapPrefix t = b_mapPrefix b ->
  exists st' m,
    parseExpressionsAsync grammar (S (S fuel)) b st = Some (st', m)
    /\ round_promises grammar t st' = []
    /\ fetches (parseExpression grammar t reevaluate st').1 = fetches st'
    /\ waiters (parseExpression grammar t reevaluate st').1 = waiters st'.
Proof.
  intros Hin Hf Ha Hp.
  destruct (batch_call_spec fuel b st) as (st' & H1 & _ & _ & _ & _ & Hall).
  exists st', (reduce_entries grammar b (b_expressions b) ∅ [] st).2.
  split; [done|].
  rewrite Forall_forall in Hall. specialize (Hall _ Hin). simpl in Hall.
  assert (settled st' (t_mapPrefix t) (task_prog grammar t)) as Hk.
  { unfold task_prog, entry_prog in *. by rewrite Hf, Ha, Hp. }
  pose proof (settled_round_final t st' Hk) as Hnone.
  destruct (parseExpression_spec t reevaluate st') as (_ & _ & _ & (fs & Hfs & Hps) & Hm).
  rewrite Hnone in Hm, Hps. destruct Hm as (_ & Hw & _).
  split; [done|]. split; [|done].
  destruct fs; [by rewrite app_nil_r in Hfs|done].
Qed.

(** ** The re-evaluation loop *)

Lemma settled_on_path st mapPrefix p q :
  on_path st mapPrefix p q -> settled st mapPrefix p -> settled st mapPrefix q.
Proof.
  induction 1 as [|l a v k x q Hx Hq IH]; simpl; [done|].
  intros [_ Hk]. apply IH. unfold cached in Hk. by rewrite Hx in Hk.
Qed.

Lemma on_path_settled st mapPrefix p q :
  on_path st mapPrefix p q -> settled st mapPrefix q -> settled st mapPrefix p.
Proof.
  induction 1 as [|l a v k x q Hx Hq IH]; simpl; [done|].
  intros Hk. split; [right; by rewrite Hx|]. unfold cached. rewrite Hx. by apply IH.
Qed.

Lemma on_path_mono st st' mapPrefix p q :
  store st ⊆ store st' -> on_path st mapPrefix p q -> on_path st' mapPrefix p q.
Proof.
  intros Hsub. induction 1 as [|l a v k x q Hx Hq IH]; [constructor|].
  econstructor; [|exact IH]. by eapply lookup_weaken.
Qed.

Lemma on_path_snoc st mapPrefix p l a v k x :
  on_path st mapPrefix p (GetFeature l a v k) ->
  store st !! cache_key (mapPrefix +:+ l) a v = Some x ->
  on_path st mapPrefix p (k x).
Proof.
  intros Hp Hx. remember (GetFeature l a v k) as q eqn:Hq.
  induction Hp as [p|l' a' v' k' x' q Hx' Hq' IH].
  - subst p. econstructor; [exact Hx|constructor].
  - econstructor; [exact Hx'|]. by apply IH.
Qed.

Lemma run_app tr1 tr2 st :
  run grammar (tr1 ++ tr2) st = run grammar tr2 (run grammar tr1 st).
Proof. unfold run. apply foldl_app. Qed.

Lemma run_answers results ps : forall st,
  run grammar (map (fun fid => EvFeatures fid (results fid)) ps) st
  = answer_all results ps st.
Proof. induction ps as [|fid ps IH]; intros st; simpl; [done|]. apply IH. Qed.

Lemma answer_all_resolves results ps : forall st,
  (forall key, key ∈ requests st -> store st !! key = None) ->
  (forall key, key ∈ requests st ->
     exists fid f, fid ∈ ps /\ fetches st !! fid = Some f /\ req_key f = key) ->
  requests (answer_all results ps st) = ∅
  /\ store st ⊆ store (answer_all results ps st)
  /\ (forall key, key ∈ requests st -> is_Some (store (answer_all results ps st) !! key))
  /\ fetches (answer_all results ps st) = fetches st
  /\ waiters (answer_all results ps st) = waiters st
  /\ callbacks (answer_all results ps st) = callbacks st.
Proof.
  induction ps as [|fid ps IH]; intros st Hpu Hcov; simpl.
  { split; [|by repeat split; try done; intros key [? [? [[]%elem_of_nil _]]]%Hcov].
    apply elem_of_equiv_empty_L. intros key [? [? [[]%elem_of_nil _]]]%Hcov. }
  set (s1 := getFeatures_callback fid (results fid) st).
  assert (fetches s1 = fetches st /\ waiters s1 = waiters st
          /\ callbacks s1 = callbacks st) as (Hf1 & Hw1 & Hc1).
  { unfold s1, getFeatures_callback. destruct (fetches st !! fid); [|done].
    unfold store_result. by case_decide. }
  assert (store st ⊆ store s1
          /\ (forall key, key ∈ requests s1 -> store s1 !! key = None)
          /\ (forall key, key ∈ requests st ->
                key ∈ requests s1 \/ (is_Some (store s1 !! key)
                                      /\ exists f, fetches st !! fid = Some f
                                                   /\ req_key f = key))
          /\ requests s1 ⊆ requests st) as (Hsub & Hpu1 & Hsplit & Hreq).
  { unfold s1, getFeatures_callback.
    destruct (fetches st !! fid) as [f|] eqn:Hfid; [|by repeat split; auto].
    unfold store_result. case_decide as Hin; simpl; [|by repeat split; auto].
    split; [apply insert_subseteq; by apply Hpu|]. split; [|split].
    - intros key [Hk Hne%not_elem_of_singleton]%elem_of_difference.
      rewrite lookup_insert_ne by done. by apply Hpu.
    - intros key Hk. destruct (decide (key = req_key f)) as [->|Hne].
      + right. rewrite lookup_insert_eq. split; [by eexists|by exists f].
      + left. apply elem_of_difference. split; [done|].
        by apply not_elem_of_singleton.
    - intros key [Hk _]%elem_of_difference. done. }
  destruct (IH s1) as (Hr & Hs & Hres & Hf & Hw & Hc); [done| |].
  { intros key Hk. destruct (Hcov key (Hreq key Hk)) as (fid' & f & Hin & Hf' & Hkey).
    exists fid', f. rewrite Hf1. split; [|done].
    apply elem_of_cons in Hin as [->|Hin]; [|done].
    exfalso. revert Hk. unfold s1, getFeatures_callback. rewrite Hf'.
    unfold store_result. rewrite Hkey.
    destruct (decide (key ∈ requests st)) as [Hin'|Hout]; simpl; [|done].
    intros [_ Hn]%elem_of_difference. by apply Hn, elem_of_singleton. }
  split; [done|]. split; [by transitivity (store s1)|].
  split; [|repeat split; congruence].
  intros key Hk. destruct (Hsplit key Hk) as [Hk1|[[x Hx] _]]; [by apply Hres|].
  exists x. by eapply lookup_weaken.
Qed.

Lemma parseExpression_requests t reevaluate st :
  exists fs,
    store (parseExpression grammar t reevaluate st).1 = store st
    /\ fetches (parseExpression grammar t reevaluate st).1 = fetches st ++ fs
    /\ round_promises grammar t st = seq (length (fetches st)) (length fs)
    /\ Forall (fun f => ~ requested (req_key f) st) fs
    /\ (forall key, key ∈ requests (parseExpression grammar t reevaluate st).1 ->
          key ∈ requests st \/ key ∈ (req_key <$> fs))
    /\ settled (parseExpression grammar t reevaluate st).1 (t_mapPrefix t)
               (task_prog grammar t).
Proof.
  unfold parseExpression, round_promises, try_feed, task_prog.
  pose proof (run_prog_fresh (t_editIface t) (t_mapPrefix t) (t_mapCrs t)
    (grammar (t_feature t) (t_asFilter t) (replace_newline (t_expr t))) []
    (log_fed (replace_newline (t_expr t)) st)) as Hfresh.
  pose proof (run_prog_spec (t_editIface t) (t_mapPrefix t) (t_mapCrs t)
    (grammar (t_feature t) (t_asFilter t) (replace_newline (t_expr t))) []
    (log_fed (replace_newline (t_expr t)) st)) as Hspec.
  destruct (run_prog _ _ _ _ _ _) as [[st1 promises] r]. simpl in Hfresh, Hspec.
  destruct Hfresh as (fs & Hf & Hp & _ & Hall & Hcov).
  destruct Hspec as (_ & Hs & _ & Hk & _). exists fs.
  assert (forall s' : State Feature,
    store s' = store st1 -> fetches s' = fetches st1 -> requests s' = requests st1 ->
    store s' = store st
    /\ fetches s' = fetches st ++ fs
    /\ promises = seq (length (fetches st)) (length fs)
    /\ Forall (fun f => ~ requested (req_key f) st) fs
    /\ (forall key, key ∈ requests s' -> key ∈ requests st \/ key ∈ (req_key <$> fs))
    /\ settled s' (t_mapPrefix t)
         (grammar (t_feature t) (t_asFilter t) (replace_newline (t_expr t))))
    as Hgoal.
  { intros s' Hs' Hf' Hr'. rewrite Hs', Hf', Hr'. repeat split; try done.
    - eapply Forall_impl; [exact Hall|]. by intros f [? _].
    - apply (settled_mono _ _ st1); [done|by rewrite Hr'|done]. }
  destruct r as [v|]; simpl; destruct promises as [|fid ps]; simpl;
    try destruct reevaluate;
    match goal with |- context [settled ?s _ _] => by apply (Hgoal s) end.
Qed.

Lemma loop_terminates results t : forall q st reevaluate,
  requests st = ∅ ->
  on_path st (t_mapPrefix t) (task_prog grammar t) q ->
  exists tr,
    answers_with results tr
    /\ requests (run grammar tr (parseExpression grammar t reevaluate st).1) = ∅
    /\ store st ⊆ store (run grammar tr (parseExpression grammar t reevaluate st).1)
    /\ waiters (run grammar tr (parseExpression grammar t reevaluate st).1) = waiters st
    /\ settled (run grammar tr (parseExpression grammar t reevaluate st).1)
               (t_mapPrefix t) (task_prog grammar t)
    /\ callbacks (run grammar tr (parseExpression grammar t reevaluate st).1)
       = callbacks st
         ++ (if reevaluate then [t_reevaluateCallback t]
             else match round_promises grammar t st with
                  | [] => []
                  | _ :: _ => [t_reevaluateCallback t]
                  end).
Proof.
  assert (forall q st reevaluate,
    requests st = ∅ ->
    on_path st (t_mapPrefix t) (task_prog grammar t) q ->
    settled st (t_mapPrefix t) q ->
    exists tr,
      answers_with results tr
      /\ requests (run grammar tr (parseExpression grammar t reevaluate st).1) = ∅
      /\ store st ⊆ store (run grammar tr (parseExpression grammar t reevaluate st).1)
      /\ waiters (run grammar tr (parseExpression grammar t reevaluate st).1)
         = waiters st
      /\ settled (run grammar tr (parseExpression grammar t reevaluate st).1)
                 (t_mapPrefix t) (task_prog grammar t)
      /\ callbacks (run grammar tr (parseExpression grammar t reevaluate st).1)
         = callbacks st
           ++ (if reevaluate then [t_reevaluateCallback t]
               else match round_promises grammar t st with
                    | [] => []
                    | _ :: _ => [t_reevaluateCallback t]
                    end)) as Hleaf.
  { intros q st reevaluate Hq Hpath Hset.
    pose proof (on_path_settled _ _ _ _ Hpath Hset) as Hp.
    pose proof (settled_round_final t st Hp) as Hnone.
    destruct (parseExpression_requests t reevaluate st)
      as (fs & Hs & Hf & Hps & _ & Hcov & Hk).
    destruct (parseExpression_spec t reevaluate st) as (_ & _ & _ & _ & Hm).
    rewrite Hnone in Hm, Hps |- *. destruct Hm as (_ & Hw & Hc).
    destruct fs; [|done].
    exists []. simpl. split; [constructor|].
    split; [|split; [by rewrite Hs|split; [done|split; [done|]]]].
    - apply elem_of_equiv_empty_L. intros key [Hin|Hin]%Hcov.
      + rewrite Hq in Hin. by apply elem_of_empty in Hin.
      + by apply elem_of_nil in Hin.
    - rewrite Hc. by destruct reevaluate. }
  induction q as [r| |l a v k IH]; intros st reevaluate Hq Hpath.
  1, 2: by apply (Hleaf _ st reevaluate Hq Hpath).
  destruct (store st !! cache_key (t_mapPrefix t +:+ l) a v) as [x|] eqn:Hx.
  { apply (IH x); [done|]. by eapply on_path_snoc. }
  set (key := cache_key (t_mapPrefix t +:+ l) a v) in *.
  destruct (parseExpression_requests t reevaluate st)
    as (fs & Hs & Hf & Hps & Hnew & Hcov & Hk).
  destruct (parseExpression_spec t reevaluate st) as (_ & _ & _ & _ & Hm).
  set (st1 := (parseExpression grammar t reevaluate st).1) in *.
  assert (key ∈ requests st1) as Hkey.
  { assert (on_path st1 (t_mapPrefix t) (task_prog grammar t) (GetFeature l a v k))
      as Hpath1 by (apply (on_path_mono st); [by rewrite Hs|done]).
    destruct (settled_on_path _ _ _ _ Hpath1 Hk) as [[Hin|[y Hy]] _]; [done|].
    fold key in Hy. rewrite Hs in Hy. congruence. }
  assert (forall key', key' ∈ requests st1 -> key' ∈ (req_key <$> fs)) as Hcov'.
  { intros key' [Hin|Hin]%Hcov; [|done]. rewrite Hq in Hin.
    by apply elem_of_empty in Hin. }
  destruct fs as [|f0 fs0] eqn:Efs; [by apply Hcov', elem_of_nil in Hkey|].
  rewrite <- Efs in *. clear Efs f0 fs0.
  assert (round_promises grammar t st <> []) as Hne.
  { rewrite Hps. destruct fs; [|done]. by apply Hcov', elem_of_nil in Hkey. }
  destruct (round_promises grammar t st) as [|fid0 ps0] eqn:Eps; [done|].
  rewrite <- Eps in *. destruct Hm as (_ & Hw1 & Hc1).
  set (ps := round_promises grammar t st) in *.
  set (w := mkWaiter ps t) in *.
  destruct (answer_all_resolves results ps st1) as (Hr2 & Hs2 & Hres & Hf2 & Hw2 & Hc2).
  { intros key' Hin. apply Hcov', list_elem_of_fmap in Hin as [f [-> Hin]].
    rewrite Forall_forall in Hnew. specialize (Hnew f Hin). rewrite Hs.
    destruct (store st !! req_key f) eqn:E; [|done].
    destruct Hnew. right. by rewrite E. }
  { intros key' Hin. apply Hcov', list_elem_of_fmap in Hin as [f [-> Hin]].
    apply list_elem_of_lookup in Hin as [i Hi].
    exists (length (fetches st) + i), f. split; [|split; [|done]].
    - rewrite Hps. apply elem_of_seq. apply lookup_lt_Some in Hi. lia.
    - rewrite Hf. rewrite lookup_app_r by lia.
      by replace (length (fetches st) + i - length (fetches st)) with i by lia. }
  set (st2 := answer_all results ps st1) in *.
  assert (ready w st2 = true) as Hready.
  { apply (answer_all_ready results w st1). simpl. apply Forall_forall.
    intros fid Hin. fold ps in Hps. rewrite Hps in Hin. apply elem_of_seq in Hin.
    rewrite Hf, length_app. lia. }
  assert (waiters st2 !! length (waiters st) = Some w) as Hlook.
  { rewrite Hw2, Hw1. by apply list_lookup_middle. }
  set (st3 := remove_waiter (length (waiters st)) st2).
  assert (waiters st3 = waiters st) as Hw3.
  { unfold st3, remove_waiter. simpl. rewrite Hw2, Hw1.
    rewrite take_app_length.
    replace (S (length (waiters st))) with (length (waiters st ++ [w]))
      by (rewrite length_app; simpl; lia).
    by rewrite drop_all, app_nil_r. }
  destruct (Hres key Hkey) as [x Hx2].
  destruct (IH x st3 true) as (tr' & Hans & Hr' & Hs' & Hw' & Hk' & Hc'); [done| |].
  { apply (on_path_snoc _ _ _ l a v k x); [|done].
    apply (on_path_mono st); [|done]. unfold st3; simpl.
    rewrite <- Hs. done. }
  exists (map (fun fid => EvFeatures fid (results fid)) ps
          ++ EvThen (length (waiters st)) :: tr').
  assert (run grammar (map (fun fid => EvFeatures fid (results fid)) ps
                       ++ EvThen (length (waiters st)) :: tr') st1
          = run grammar tr' (parseExpression grammar t true st3).1) as ->.
  { rewrite run_app, run_answers. fold st2. simpl. unfold run_then.
    by rewrite Hlook, Hready. }
  split; [|split; [done|split; [|split; [congruence|split; [done|]]]]].
  - apply Forall_app. split; [|by constructor].
    apply Forall_forall. intros e [fid [-> _]]%list_elem_of_fmap. done.
  - transitivity (store st3); [|done]. unfold st3; simpl. by rewrite <- Hs.
  - rewrite Hc'. unfold st3; simpl. rewrite Hc2, Hc1. by destruct reevaluate.
Qed.

(** The loop of [parseExpression] terminates when requests are answered.
    From a state with no request outstanding, there is a finite run of
    callbacks (with whatever results) and of the call's own continuations
    after which no request is outstanding, the call has no continuation left,
    a further round asks for nothing new, and the callback has been invoked
    once if the first round was provisional and not at all if it was final. *)
Theorem reevaluation_terminates results t st :
  requests st = ∅ ->
  exists tr,
    answers_with results tr
    /\ requests (run grammar tr (step grammar (EvParseExpression t false) st)) = ∅
    /\ waiters (run grammar tr (step grammar (EvParseExpression t false) st))
       = waiters st
    /\ round_promises grammar t
         (run grammar tr (step grammar (EvParseExpression t false) st)) = []
    /\ callbacks (run grammar tr (step grammar (EvParseExpression t false) st))
       = callbacks st
         ++ match round_promises grammar t st with
            | [] => []
            | _ :: _ => [t_reevaluateCallback t]
            end.
Proof.
  intros Hq.
  destruct (loop_terminates results t (task_prog grammar t) st false Hq)
    as (tr & Hans & Hr & _ & Hw & Hk & Hc); [constructor|].
  exists tr. cbn [step]. repeat split; try done. by apply settled_round_final.
Qed.

(** ** The callback is invoked *)

Lemma answer_all_frame results ps : forall st,
  fetches (answer_all results ps st) = fetches st
  /\ waiters (answer_all results ps st) = waiters st
  /\ callbacks (answer_all results ps st) = callbacks st.
Proof.
  induction ps as [|fid ps IH]; intros st; simpl; [done|].
  destruct (IH (getFeatures_callback fid (results fid) st)) as (-> & -> & ->).
  unfold getFeatures_callback. destruct (fetches st !! fid); [|done].
  unfold store_result. by case_decide.
Qed.

Lemma parseExpression_waiters_valid t reevaluate st :
  (forall w fid, w ∈ waiters st -> fid ∈ w_promises w -> fid < length (fetches st)) ->
  forall w fid, w ∈ waiters (parseExpression grammar t reevaluate st).1 ->
    fid ∈ w_promises w ->
    fid < length (fetches (parseExpression grammar t reevaluate st).1).
Proof.
  intros Hv w fid.
  destruct (parseExpression_spec t reevaluate st) as (_ & _ & _ & (fs & -> & Hp) & Hm).
  rewrite length_app.
  destruct (round_promises grammar t st) as [|fid0 ps] eqn:Eps.
  - destruct Hm as (_ & -> & _). intros Hw Hfid. specialize (Hv w fid Hw Hfid). lia.
  - destruct Hm as (_ & -> & _).
    intros [Hw| ->%list_elem_of_singleton]%elem_of_app Hfid.
    + specialize (Hv w fid Hw Hfid). lia.
    + simpl in Hfid. rewrite Hp in Hfid. apply elem_of_seq in Hfid. lia.
Qed.

Lemma step_waiters_valid e st :
  (forall w fid, w ∈ waiters st -> fid ∈ w_promises w -> fid < length (fetches st)) ->
  forall w fid, w ∈ waiters (step grammar e st) -> fid ∈ w_promises w ->
    fid < length (fetches (step grammar e st)).
Proof.
  intros Hv.
  destruct e as [editIface dataset mapCrs attr value|t reevaluate|b|fid' result|i|];
    cbn [step].
  - destruct (get_spec editIface dataset mapCrs attr value [] st)
      as (_ & _ & _ & _ & fs & Hf & _).
    assert (waiters (get editIface dataset mapCrs attr value [] st).1.1 = waiters st)
      as Hw.
    { unfold get. destruct (store st !! _); [done|]. by case_decide. }
    intros w fid. rewrite Hw, Hf, length_app. intros Hin Hfid.
    specialize (Hv w fid Hin Hfid). lia.
  - by apply parseExpression_waiters_valid.
  - destruct (parseExpressionsAsync grammar 2 b st) as [[st' m]|] eqn:Hb; [|done].
    assert (waiters st' = waiters st /\ length (fetches st) <= length (fetches st'))
      as [Hw Hl].
    { revert Hb. apply (parseExpressionsAsync_R (fun s s' =>
        waiters s' = waiters s /\ length (fetches s) <= length (fetches s')));
        try done.
      - intros s1 s2 s3 [? ?] [? ?]. split; [congruence|lia].
      - intros k f s _ _ _. unfold dispatch; simpl. rewrite length_app. split; [done|lia]. }
    intros w fid. rewrite Hw. intros Hin Hfid. specialize (Hv w fid Hin Hfid). lia.
  - unfold getFeatures_callback. destruct (fetches st !! fid'); [|done].
    unfold store_result. by case_decide.
  - unfold run_then. destruct (waiters st !! i) as [w0|]; [|done].
    destruct (ready w0 st); [|done].
    apply parseExpression_waiters_valid. intros w fid. unfold remove_waiter; simpl.
    intros [Hin|Hin]%elem_of_app; apply Hv.
    + by eapply subseteq_take.
    + by eapply subseteq_drop.
  - done.
Qed.

Lemma run_waiters_valid tr : forall w fid,
  w ∈ waiters (run grammar tr initial) -> fid ∈ w_promises w ->
  fid < length (fetches (run grammar tr initial)).
Proof.
  cut (forall st,
    (forall w fid, w ∈ waiters st -> fid ∈ w_promises w -> fid < length (fetches st)) ->
    forall w fid, w ∈ waiters (run grammar tr st) -> fid ∈ w_promises w ->
      fid < length (fetches (run grammar tr st))).
  { intros H. apply H. intros w fid Hin. by apply elem_of_nil in Hin. }
  induction tr as [|e tr IH]; intros st Hv; simpl; [done|].
  by apply IH, step_waiters_valid.
Qed.

Lemma then_round_weight cb i w st :
  invocations cb st + waiting cb st = 1 ->
  waiters st !! i = Some w ->
  t_reevaluateCallback (w_task w) = cb ->
  ready w st = true ->
  (round_promises grammar (w_task w) (remove_waiter i st) = [] ->
     invocations cb (step grammar (EvThen i) st) = 1
     /\ waiting cb (step grammar (EvThen i) st) = 0)
  /\ (round_promises grammar (w_task w) (remove_waiter i st) <> [] ->
     invocations cb (step grammar (EvThen i) st) = 0
     /\ waiting cb (step grammar (EvThen i) st) = 1).
Proof.
  intros Hone Hi Hcb Hready. cbn [step]. unfold run_then. rewrite Hi, Hready.
  pose proof (waiting_remove cb i w st Hi) as Hrem.
  rewrite decide_True in Hrem by done.
  pose proof (parseExpression_weight cb (w_task w) true (remove_waiter i st)) as Hw.
  simpl in Hw. rewrite decide_True in Hw by done.
  assert (invocations cb (remove_waiter i st) = invocations cb st) as Hinv by done.
  destruct (parseExpression_spec (w_task w) true (remove_waiter i st))
    as (_ & _ & _ & _ & Hm').
  split; intros Hp'.
  - rewrite Hp' in Hm', Hw. destruct Hm' as (_ & Hwt & _).
    assert (waiting cb (parseExpression grammar (w_task w) true
              (remove_waiter i st)).1 = waiting cb (remove_waiter i st))
      as Hsame by (unfold waiting; by rewrite Hwt).
    lia.
  - destruct (round_promises grammar (w_task w) (remove_waiter i st))
      as [|fid' ps']; [done|].
    destruct Hm' as (_ & _ & Hc).
    assert (invocations cb (parseExpression grammar (w_task w) true
              (remove_waiter i st)).1 = invocations cb (remove_waiter i st))
      as Hsame by (unfold invocations; by rewrite Hc).
    lia.
Qed.

Lemma waiting_lookup cb st :
  0 < waiting cb st ->
  exists i w, waiters st !! i = Some w /\ t_reevaluateCallback (w_task w) = cb.
Proof.
  unfold waiting. intros Hpos.
  destruct (filter (fun w => t_reevaluateCallback (w_task w) = cb) (waiters st))
    as [|w l] eqn:Ef; [simpl in Hpos; lia|].
  assert (w ∈ filter (fun w => t_reevaluateCallback (w_task w) = cb) (waiters st))
    as Hin by (rewrite Ef; by apply elem_of_cons; left).
  apply list_elem_of_filter in Hin as [Hcb Hin].
  apply list_elem_of_lookup in Hin as [i Hi]. by exists i, w.
Qed.

(** C6 (the callback). Take a call of [parseExpression] with [reevaluate]
    left at [false] whose callback no other call uses. If its first round
    ends with an empty promise list, it returns the final value and the
    callback is never invoked. Otherwise it returns [null], and from then on
    either the callback has been invoked exactly once or one re-evaluation is
    still waiting, never both. A waiting re-evaluation is ready as soon as
    its requests have been answered, and its round invokes the callback when
    its promise list is empty and waits once more when not. When no request
    was outstanding before the call, answering the requests round by round
    ends with the callback invoked exactly once. *)
Theorem reevaluate_callback_once tr1 t tr2 :
  forallb (fun e => negb (passes (t_reevaluateCallback t) e)) tr1 = true ->
  forallb (fun e => negb (passes (t_reevaluateCallback t) e)) tr2 = true ->
  let cb := t_reevaluateCallback t in
  let st0 := run grammar tr1 initial in
  let final := run grammar tr2 (step grammar (EvParseExpression t false) st0) in
  let r := default VNull (prog_result st0 (t_mapPrefix t) (task_prog grammar t)) in
  (round_promises grammar t st0 = [] ->
     (parseExpression grammar t false st0).2
       = (if t_asFilter t then VArray [r] else r)
     /\ invocations cb final = 0 /\ waiting cb final = 0)
  /\ (round_promises grammar t st0 <> [] ->
     (parseExpression grammar t false st0).2 = VNull
     /\ invocations cb final + waiting cb final = 1
     /\ (forall i w,
          waiters final !! i = Some w ->
          t_reevaluateCallback (w_task w) = cb ->
          ready w final = true ->
          (round_promises grammar (w_task w) (remove_waiter i final) = [] ->
             invocations cb (step grammar (EvThen i) final) = 1
             /\ waiting cb (step grammar (EvThen i) final) = 0)
          /\ (round_promises grammar (w_task w) (remove_waiter i final) <> [] ->
             invocations cb (step grammar (EvThen i) final) = 0
             /\ waiting cb (step grammar (EvThen i) final) = 1))
     /\ (invocations cb final = 1
         \/ exists i w, waiters final !! i = Some w
                        /\ t_reevaluateCallback (w_task w) = cb)
     /\ (forall i w results,
          waiters final !! i = Some w ->
          t_reevaluateCallback (w_task w) = cb ->
          ready w (answer_all results (w_promises w) final) = true
          /\ (round_promises grammar (w_task w)
                (remove_waiter i (answer_all results (w_promises w) final)) = [] ->
              invocations cb (step grammar (EvThen i)
                                (answer_all results (w_promises w) final)) = 1
              /\ waiting cb (step grammar (EvThen i)
                               (answer_all results (w_promises w) final)) = 0)
          /\ (round_promises grammar (w_task w)
                (remove_waiter i (answer_all results (w_promises w) final)) <> [] ->
              invocations cb (step grammar (EvThen i)
                                (answer_all results (w_promises w) final)) = 0
              /\ waiting cb (step grammar (EvThen i)
                               (answer_all results (w_promises w) final)) = 1))
     /\ (requests st0 = ∅ ->
         forall results, exists tr,
           answers_with results tr
           /\ invocations cb
                (run grammar tr (step grammar (EvParseExpression t false) st0)) = 1
           /\ waiting cb
                (run grammar tr (step grammar (EvParseExpression t false) st0)) = 0)).
Proof.
  intros H1 H2 cb st0 final r.
  assert (invocations cb st0 + waiting cb st0 = 0) as H0.
  { unfold st0. by rewrite run_weight. }
  pose proof (parseExpression_weight cb t false st0) as Hround. simpl in Hround.
  rewrite decide_True in Hround by done.
  assert (invocations cb final + waiting cb final
          = invocations cb (parseExpression grammar t false st0).1
            + waiting cb (parseExpression grammar t false st0).1) as Hfinal.
  { unfold final. by rewrite run_weight. }
  destruct (parseExpression_spec t false st0) as (_ & _ & _ & _ & Hm).
  split.
  - intros Hp. rewrite Hp in Hm, Hround. destruct Hm as (-> & _). split; [done|]. lia.
  - intros Hp. destruct (round_promises grammar t st0) as [|fid ps] eqn:E; [done|].
    destruct Hm as (-> & _). split; [done|].
    assert (invocations cb final + waiting cb final = 1) as Hone by lia.
    split; [done|]. split; [|split; [|split]].
    + intros i w Hi Hcb Hready. by apply then_round_weight.
    + destruct (decide (invocations cb final = 1)) as [?|Hne]; [by left|right].
      apply waiting_lookup. lia.
    + intros i w results Hi Hcb.
      destruct (answer_all_frame results (w_promises w) final) as (Hf & Hw & Hc).
      assert (ready w (answer_all results (w_promises w) final) = true) as Hready.
      { apply answer_all_ready. apply Forall_forall. intros fid' Hfid.
        assert (final = run grammar (tr1 ++ EvParseExpression t false :: tr2) initial)
          as Hrun by (unfold final, st0; by rewrite run_app).
        rewrite Hrun. apply (run_waiters_valid _ w); [|done].
        rewrite <- Hrun. by eapply list_elem_of_lookup_2. }
      split; [done|]. apply then_round_weight; try done.
      * unfold invocations, waiting in *. by rewrite Hw, Hc.
      * by rewrite Hw.
    + intros Hq results.
      destruct (loop_terminates results t (task_prog grammar t) st0 false Hq)
        as (tr & Hans & _ & _ & Hw & _ & Hc); [constructor|].
      exists tr. cbn [step]. split; [done|].
      rewrite E in Hc. unfold invocations, waiting in *.
      rewrite Hw, Hc, filter_app, length_app, filter_cons, filter_nil.
      rewrite decide_True by done. simpl. lia.
Qed.

End Properties.

(** ** Concrete runs *)

(** C10 as stated fails: the key is requested again after [clear], and the
    callback of the request made before [clear] then fills the new store and
    empties the new pending set. *)
Lemma stale_completion_overwrites :
  let t := sc_task "getFeature('parcels','id','42').area" 7 in
  let st := run sc_grammar [EvParseExpression t false] initial in
  let s1 := run sc_grammar [EvParseExpression t false] (clear st) in
  let s2 := getFeatures_callback 0 (ResFeatures [sc_parcel]) s1 in
  (fetches st !! 0 = Some (mkFetchReq 0 "parcels" "EPSG:2056" "id" "42")
   /\ store s1 !! sc_key = None
   /\ sc_key ∈ requests s1)
  /\ store s2 !! sc_key = Some (Some sc_parcel)
  /\ sc_key ∉ requests s2.
Proof.
  cbv zeta. split; [split; [|split]|split].
  - reflexivity.
  - vm_compute. reflexivity.
  - apply (bool_decide_unpack _). vm_compute. exact I.
  - vm_compute. reflexivity.
  - apply (bool_decide_unpack _). vm_compute. exact I.
Qed.

(** Scenario A of the specification: no lookup, the product is returned in
    the first round and nothing else happens. *)
Example scenario_A :
  let t := mkTask "{quantity} * {price}"
                  [("quantity"%string, 3%Z); ("price"%string, 2%Z)]
                  0 "" "EPSG:2056" 7 false in
  parseExpression sc_grammar t false initial
  = (mkState ∅ ∅ [] ∅ [] [] ["{quantity} * {price}"%string] [], VNum 6).
Proof. vm_compute. reflexivity. Qed.

(** Scenario B: the first round returns [null] and waits for request 0; once
    the feature has arrived, the second round invokes the callback, and a
    later call returns the area. *)
Example scenario_B :
  let s1 := step sc_grammar (EvParseExpression sc_lookup false) initial in
  let s2 := run sc_grammar [EvFeatures 0 (ResFeatures [sc_parcel]); EvThen 0] s1 in
  (parseExpression sc_grammar sc_lookup false initial).2 = VNull
  /\ fetches s1 = [sc_req]
  /\ waiters s1 = [mkWaiter [0] sc_lookup]
  /\ callbacks s1 = []
  /\ waiters s2 = []
  /\ callbacks s2 = [7]
  /\ fetches s2 = [sc_req]
  /\ (parseExpression sc_grammar sc_lookup false s2).2 = VNum 150.
Proof. cbv zeta. repeat split; vm_compute; reflexivity. Qed.

(** C7 as stated fails: the key is requested, [clear] is called, the key is
    requested again and the first request answered with a feature. The second
    request has been dispatched and its callback has not run; when it now
    completes with no feature, the store keeps the feature of the first
    request instead of [null]. *)
Lemma stale_outcome_kept :
  let s := run sc_grammar [EvParseExpression sc_lookup false; EvClear;
                           EvParseExpression sc_lookup false;
                           EvFeatures 0 (ResFeatures [sc_parcel])] initial in
  (fetches s !! 1 = Some sc_req /\ 1 ∉ accepted s)
  /\ store (getFeatures_callback 1 (ResFeatures []) s) !! req_key sc_req
     = Some (Some sc_parcel)
  /\ store (getFeatures_callback 1 (ResFeatures []) s) !! req_key sc_req
     <> Some None.
Proof.
  cbv zeta. split; [split|split].
  - vm_compute. reflexivity.
  - apply (bool_decide_unpack _). vm_compute. exact I.
  - vm_compute. reflexivity.
  - vm_compute. discriminate.
Qed.

(** C8 as stated fails: [("a:b", "c", "d")] and [("a", "b:c", "d")] are
    different triples with one key, and the second is answered from the entry
    of the first. *)
Lemma cache_key_alias :
  let s1 := (get 0 "a:b" "EPSG:2056" "c" "d" [] initial).1.1 in
  let s2 := getFeatures_callback 0 (ResFeatures [sc_parcel]) s1 in
  ("a:b"%string, "c"%string, "d"%string) <> ("a"%string, "b:c"%string, "d"%string)
  /\ cache_key "a:b" "c" "d" = cache_key "a" "b:c" "d"
  /\ get 0 "a" "EPSG:2056" "b:c" "d" [] s2 = (s2, [], Some sc_parcel).
Proof.
  cbv zeta. split; [discriminate|]. split; [reflexivity|].
  vm_compute. reflexivity.
Qed.

(** The number [42] and the string ["42"] are different values with one
    text, and so with one key: no colon is needed for two triples to share an
    entry. *)
Lemma cache_key_coerced :
  (SStr "parcels", SStr "id", SNum 42) <> (SStr "parcels", SStr "id", SStr "42")
  /\ scalar_key (SStr "parcels") (SStr "id") (SNum 42)
     = scalar_key (SStr "parcels") (SStr "id") (SStr "42")
  /\ scalar_key (SStr "parcels") (SStr "id") (SNum 42) = sc_key.
Proof. split; [discriminate|]. split; vm_compute; reflexivity. Qed.

(** C5 as stated fails: a [feed] that throws after it has asked for a feature
    leaves a request behind, and the call is scheduled once more. *)
Lemma failed_feed_rescheduled :
  let t := sc_task "getFeature('parcels','id','42') )" 7 in
  prog_result initial (t_mapPrefix t) (task_prog sc_grammar t) = None
  /\ warnings (parseExpression sc_grammar t false initial).1
     = ["Failed to evaluate expression getFeature('parcels','id','42') )"%string]
  /\ waiters (parseExpression sc_grammar t false initial).1 = [mkWaiter [0] t].
Proof. cbv zeta. split; [reflexivity|]. split; vm_compute; reflexivity. Qed.

(** C2 at the batch [{x: "1+1", y: "getFeature('parcels','id','42').area"}]
    with an empty cache: the promise is resolved with the mapping of the first
    pass, in which [y] is [null]; the call leaves one request and no
    continuation behind, so the completion of the request reaches nobody; only
    a new call finds [y = 150]. *)
Theorem batch_resolves_provisional :
  let st' := step sc_grammar (EvParseExpressionsAsync sc_batch) initial in
  let st'' := getFeatures_callback 0 (ResFeatures [sc_parcel]) st' in
  resolved_with (parseExpressionsAsync sc_grammar 2 sc_batch initial) "x"
    = Some (VNum 2)
  /\ resolved_with (parseExpressionsAsync sc_grammar 2 sc_batch initial) "y"
    = Some VNull
  /\ fetches st' = [sc_req]
  /\ waiters st' = []
  /\ waiters st'' = []
  /\ resolved_with (parseExpressionsAsync sc_grammar 2 sc_batch st'') "y"
    = Some (VNum 150).
Proof. cbv zeta. repeat split; vm_compute; reflexivity. Qed.

(** ** The theorems at concrete inputs *)

Lemma single_dispatch_witness :
  forallb (fun e => negb (is_clear e)) sc_trace = true
  /\ dispatches sc_key (run sc_grammar sc_trace initial)
     <= dispatches sc_key (@initial (list (string * Z))) + 1.
Proof.
  split; [vm_compute; reflexivity|].
  apply single_dispatch. vm_compute; reflexivity.
Defined.

Lemma get_pending_witness :
  (cache_key "parcels" "id" "42" ∈ requests sc_pending
   /\ store sc_pending !! cache_key "parcels" "id" "42" = None)
  /\ get 0 "parcels" "EPSG:2056" "id" "42" [5] sc_pending = (sc_pending, [5], None).
Proof.
  assert (cache_key "parcels" "id" "42" ∈ requests sc_pending) as Hin
    by (apply (bool_decide_unpack _); vm_compute; exact I).
  assert (store sc_pending !! cache_key "parcels" "id" "42" = None) as Hs
    by (vm_compute; reflexivity).
  split; [split; assumption|]. apply get_pending; assumption.
Defined.

Lemma cache_monotone_witness :
  let tr1 := [EvParseExpression sc_lookup false;
              EvFeatures 0 (ResFeatures [sc_parcel])] in
  let tr2 := [EvThen 0; EvParseExpressionsAsync sc_batch] in
  (forallb (fun e => negb (is_clear e)) tr2 = true
   /\ store (run sc_grammar tr1 initial) !! sc_key = Some (Some sc_parcel))
  /\ store (run sc_grammar tr2 (run sc_grammar tr1 initial)) !! sc_key
     = Some (Some sc_parcel).
Proof.
  cbv zeta.
  assert (store (run sc_grammar [EvParseExpression sc_lookup false;
                                 EvFeatures 0 (ResFeatures [sc_parcel])] initial)
          !! sc_key = Some (Some sc_parcel)) as Hs by (vm_compute; reflexivity).
  split; [split; [vm_compute; reflexivity|assumption]|].
  apply (cache_monotone sc_grammar _ [EvThen 0; EvParseExpressionsAsync sc_batch]);
    [vm_compute; reflexivity|assumption].
Defined.

Lemma fetch_outcome_stored_witness :
  (fetches sc_pending !! 0 = Some sc_req /\ req_key sc_req ∈ requests sc_pending)
  /\ store (getFeatures_callback 0 (ResFeatures [sc_parcel]) sc_pending)
       !! req_key sc_req = Some (Some sc_parcel)
  /\ store (getFeatures_callback 0 (ResFeatures [sc_parcel; sc_parcel]) sc_pending)
       !! req_key sc_req = Some None
  /\ store (getFeatures_callback 0 ResNull sc_pending) !! req_key sc_req = Some None.
Proof.
  assert (fetches sc_pending !! 0 = Some sc_req) as Hf by (vm_compute; reflexivity).
  assert (req_key sc_req ∈ requests sc_pending) as Hin
    by (apply (bool_decide_unpack _); vm_compute; exact I).
  split; [split; assumption|].
  split; [|split].
  - apply (fetch_outcome_stored sc_grammar 0 sc_req (ResFeatures [sc_parcel])
             sc_pending Hf). exact Hin.
  - apply (fetch_outcome_stored sc_grammar 0 sc_req (ResFeatures [sc_parcel; sc_parcel])
             sc_pending Hf). exact Hin.
  - apply (fetch_outcome_stored sc_grammar 0 sc_req ResNull sc_pending Hf). exact Hin.
Defined.

Lemma stale_completion_noop_witness :
  let tr := [EvParseExpression (sc_task "1+1" 9) false] in
  (fetches sc_pending !! 0 = Some sc_req
   /\ forallb (fun e => negb (is_clear e)) tr = true
   /\ dispatches (req_key sc_req) (run sc_grammar tr (clear sc_pending))
      = dispatches (req_key sc_req) sc_pending)
  /\ store (getFeatures_callback 0 (ResFeatures [sc_parcel])
              (run sc_grammar tr (clear sc_pending)))
     = store (run sc_grammar tr (clear sc_pending)).
Proof.
  cbv zeta.
  assert (fetches sc_pending !! 0 = Some sc_req) as Hf by (vm_compute; reflexivity).
  assert (dispatches (req_key sc_req)
            (run sc_grammar [EvParseExpression (sc_task "1+1" 9) false]
                 (clear sc_pending))
          = dispatches (req_key sc_req) sc_pending) as Hd
    by (vm_compute; reflexivity).
  split; [split; [assumption|split; [vm_compute; reflexivity|assumption]]|].
  apply (stale_completion_noop sc_grammar sc_pending
           [EvParseExpression (sc_task "1+1" 9) false] 0 sc_req
           (ResFeatures [sc_parcel]) Hf eq_refl Hd).
Defined.

Lemma feed_failure_handled_witness :
  let t := sc_task "{a +" 7 in
  prog_result initial (t_mapPrefix t) (task_prog sc_grammar t) = None
  /\ warnings (parseExpression sc_grammar t false initial).1
     = [failed_msg (t_expr t)].
Proof.
  cbv zeta. split; [vm_compute; reflexivity|].
  apply (feed_failure_handled sc_grammar (sc_task "{a +" 7) false initial).
  vm_compute; reflexivity.
Defined.

Lemma reevaluate_callback_once_witness :
  let tr1 := [EvParseExpression (sc_task "1+1" 3) false] in
  let tr2 : list (Event (list (string * Z))) := [] in
  let final :=
    run sc_grammar tr2
        (step sc_grammar (EvParseExpression sc_lookup false)
              (run sc_grammar tr1 initial)) in
  let answered := answer_all (fun _ => ResFeatures [sc_parcel]) [0] final in
  (forallb (fun e => negb (passes 7 e)) tr1 = true
   /\ forallb (fun e => negb (passes 7 e)) tr2 = true
   /\ round_promises sc_grammar sc_lookup (run sc_grammar tr1 initial) <> [])
  /\ (parseExpression sc_grammar sc_lookup false (run sc_grammar tr1 initial)).2
     = VNull
  /\ invocations 7 final = 0
  /\ ready (mkWaiter [0] sc_lookup) answered = true
  /\ invocations 7 (step sc_grammar (EvThen 0) answered) = 1
  /\ waiting 7 (step sc_grammar (EvThen 0) answered) = 0.
Proof.
  cbv zeta.
  assert (round_promises sc_grammar sc_lookup
            (run sc_grammar [EvParseExpression (sc_task "1+1" 3) false] initial)
          <> []) as Hp by (vm_compute; discriminate).
  split; [split; [vm_compute; reflexivity|split; [vm_compute; reflexivity|assumption]]|].
  destruct (reevaluate_callback_once sc_grammar
              [EvParseExpression (sc_task "1+1" 3) false] sc_lookup [] eq_refl eq_refl)
    as [_ Hprov].
  destruct (Hprov Hp) as (Hnull & _ & _ & _ & Hlive & _).
  split; [exact Hnull|]. split; [vm_compute; reflexivity|].
  destruct (Hlive 0 (mkWaiter [0] sc_lookup) (fun _ => ResFeatures [sc_parcel]))
    as (Hready & Hdone & _); [vm_compute; reflexivity|reflexivity|].
  split; [exact Hready|]. apply Hdone. vm_compute. reflexivity.
Defined.

Lemma cache_key_structural_witness :
  (forallb safe_scalar [SStr "parcels"; SStr "id"; SStr "42";
                        SStr "parcels"; SStr "id"; SNum 42] = true
   /\ occurs ":" (to_text (SStr "parcels")) = false
   /\ occurs ":" (to_text (SStr "id")) = false)
  /\ (scalar_key (SStr "parcels") (SStr "id") (SStr "42")
      = scalar_key (SStr "parcels") (SStr "id") (SNum 42)
      <-> to_text (SStr "parcels") = to_text (SStr "parcels")
          /\ to_text (SStr "id") = to_text (SStr "id")
          /\ to_text (SStr "42") = to_text (SNum 42)).
Proof.
  split; [repeat split; reflexivity|].
  apply (cache_key_structural (SStr "parcels") (SStr "id") (SStr "42")
           (SStr "parcels") (SStr "id") (SNum 42)); reflexivity.
Defined.


(** * TimeManager *)

Module TimeManagerTheory.

Import TimeManager.

Section Animation.

Variable add : Z -> Z -> string -> Z.

Lemma clearInterval_kept c :
  timer_kept c -> clearInterval (animationTimer c) (running c) = ∅.
Proof.
  intros (Hr & _ & _). rewrite Hr. destruct (animationTimer c); simpl; [|done].
  apply difference_diag_L.
Qed.

Lemma step_timer_kept e c : timer_kept c -> timer_kept (step add e c).
Proof.
  intros Hk. pose proof (clearInterval_kept c Hk) as Hclear.
  pose proof Hk as (Hr & Hact & Hidle).
  destruct e as [enabled|key|id| |a|dims values|ts| |value|unit]; simpl.
  - destruct (body_shown c); [|done]. unfold timer_kept, toggleTimeEnabled; simpl.
    rewrite Hclear. split; [done|]. split; [done|]. by intros [? ?].
  - unfold button_enabled.
    destruct (body_shown c); simpl; [|done].
    destruct (timeEnabled (state c)) eqn:Hen; simpl; [|done].
    unfold animationButtonClicked.
    destruct (String.eqb key "rewind"); simpl.
    { unfold timer_kept; simpl. rewrite Hclear. split; [done|]. split; [done|].
      by intros [? ?]. }
    destruct (String.eqb key "stop"); simpl.
    { destruct (animationActive (state c)); [|done].
      unfold timer_kept; simpl. rewrite Hclear. split; [done|]. split; [done|].
      by intros [? ?]. }
    destruct (String.eqb key "play"); simpl; [|done].
    destruct (animationActive (state c)) eqn:Ha; simpl; [done|].
    assert (animationTimer c = None) as Hnone.
    { destruct (animationTimer c) eqn:Ht; [|done].
      destruct Hidle as [?|?]; [by eexists|done|congruence]. }
    rewrite Hnone in Hr. unfold timer_kept; simpl. rewrite Hr.
    split; [by rewrite union_empty_r_L|]. split; [by eexists|]. by left.
  - case_bool_decide as Hin; [|done]. unfold advanceAnimation.
    destruct (currentTimestamp (state c)) as [t|];
      [destruct (last (timeValues (state c))) as [lastday|]|];
      [destruct (lastday <? add t _ _)%Z| |]; unfold timer_kept; simpl;
      first [done|rewrite Hclear; split; [done|]; split; [done|]; by intros [? ?]].
  - destruct (active c); [|done]. unfold onClose, timer_kept, toggleTimeEnabled; simpl.
    rewrite Hclear. split; [done|]. split; [done|]. by intros [? ?].
  - unfold timer_kept, set_active; simpl. split; [done|].
    destruct (negb a && active c); simpl; [|done]. split; [done|]. by right.
  - done.
  - destruct (body_shown c); [|done]. unfold pickCurrentTimestamp.
    by destruct (timeEnabled (state c)).
  - by destruct (body_shown c).
  - by destruct (body_shown c && settingsPopup (state c)).
  - by destruct (body_shown c && settingsPopup (state c)).
Qed.

Lemma run_timer_kept tr : forall c, timer_kept c -> timer_kept (run add tr c).
Proof.
  induction tr as [|e tr IH]; intros c Hk; simpl; [done|].
  by apply IH, step_timer_kept.
Qed.

Lemma mounted_timer_kept : timer_kept mounted.
Proof. unfold timer_kept, mounted; simpl. split; [done|]. split; [done|]. by intros [? ?]. Qed.

(** However the component is used, at most one interval is running, and it is
    the one kept in [animationTimer]; an active animation always has its
    interval. *)
Theorem one_interval tr :
  running (run add tr mounted)
    = match animationTimer (run add tr mounted) with
      | Some id => {[id]}
      | None => ∅
      end
  /\ (animationActive (state (run add tr mounted)) = true ->
      is_Some (animationTimer (run add tr mounted))).
Proof.
  destruct (run_timer_kept tr mounted mounted_timer_kept) as (Hr & Ha & _). done.
Qed.

(** Closing the window, toggling time, "rewind" and "stop" leave no interval
    running and no animation active, whenever the control can be used. *)
Theorem stopping_controls tr e :
  match e with
  | Close => active (run add tr mounted) = true
  | Toggle _ => body_shown (run add tr mounted) = true
  | Button key => (key = "rewind"%string \/ key = "stop"%string)
                  /\ button_enabled key (run add tr mounted) = true
  | _ => False
  end ->
  running (step add e (run add tr mounted)) = ∅
  /\ animationTimer (step add e (run add tr mounted)) = None
  /\ animationActive (state (step add e (run add tr mounted))) = false.
Proof.
  pose proof (clearInterval_kept _ (run_timer_kept tr mounted mounted_timer_kept))
    as Hclear.
  destruct e as [enabled|key|id| |a|dims values|ts| |value|unit]; try done; simpl.
  - intros Hb. rewrite Hb. unfold toggleTimeEnabled; simpl. by rewrite Hclear.
  - intros [Hkey Hb]. rewrite Hb.
    destruct Hkey as [-> | ->]; unfold animationButtonClicked; simpl;
      by rewrite Hclear.
  - intros Ha. rewrite Ha. unfold onClose, toggleTimeEnabled; simpl.
    by rewrite Hclear.
Qed.

(** A tick with a valid timestamp and a last time value never leaves the
    timestamp beyond the last value; when the step would pass it, the
    timestamp is the last value, the animation is inactive and no interval is
    left running; otherwise the step is taken and the interval goes on. *)
Theorem tick_stays_in_range tr id ts lastday :
  id ∈ running (run add tr mounted) ->
  currentTimestamp (state (run add tr mounted)) = Some ts ->
  last (timeValues (state (run add tr mounted))) = Some lastday ->
  let c := run add tr mounted in
  let newday := add ts (animationSpeed (state c)) (animationSpeedUnit (state c)) in
  (exists ts', currentTimestamp (state (step add (Tick id) c)) = Some ts'
               /\ (ts' <= lastday)%Z)
  /\ ((lastday < newday)%Z ->
      currentTimestamp (state (step add (Tick id) c)) = Some lastday
      /\ animationActive (state (step add (Tick id) c)) = false
      /\ running (step add (Tick id) c) = ∅)
  /\ ((newday <= lastday)%Z ->
      currentTimestamp (state (step add (Tick id) c)) = Some newday
      /\ animationActive (state (step add (Tick id) c)) = animationActive (state c)
      /\ running (step add (Tick id) c) = running c).
Proof.
  intros Hin Hts Hlast c newday.
  pose proof (clearInterval_kept _ (run_timer_kept tr mounted mounted_timer_kept))
    as Hclear. fold c in Hclear, Hin, Hts, Hlast.
  simpl. rewrite bool_decide_eq_true_2 by done.
  unfold advanceAnimation. rewrite Hts, Hlast. fold newday.
  destruct (Z.ltb_spec lastday newday) as [Hlt|Hge]; simpl.
  - rewrite Hclear. split; [exists lastday; split; [done|lia]|].
    split; [done|]. intros ?. lia.
  - split; [by exists newday|]. split; [intros ?; lia|done].
Qed.

End Animation.

Lemma assign_lookup time res n d :
  assign time res n !! d
  = if decide (d = n /\ (n <> "__proto__"%string \/ is_Some (res !! n)))
    then Some time else res !! d.
Proof.
  unfold assign. destruct (bool_decide_reflect (n = "__proto__"%string)) as [Hn|Hn];
    simpl.
  - destruct (bool_decide_reflect (res !! n = None)) as [Hr|Hr].
    + rewrite decide_False; [done|]. intros [_ [?|[x Hx]]]; congruence.
    + destruct (decide (d = n)) as [->|Hd].
      * rewrite decide_True; [apply lookup_insert_eq|]. split; [done|]. right.
        destruct (res !! n); [by eexists|done].
      * rewrite decide_False by (by intros [? _]). by apply lookup_insert_ne.
  - destruct (decide (d = n)) as [->|Hd].
    + rewrite decide_True by (split; [done|by left]). apply lookup_insert_eq.
    + rewrite decide_False by (by intros [? _]). by apply lookup_insert_ne.
Qed.

Lemma foldl_assign_lookup time names : forall res d,
  foldl (assign time) res names !! d
  = if decide (d ∈ names /\ (d <> "__proto__"%string \/ is_Some (res !! d)))
    then Some time else res !! d.
Proof.
  induction names as [|n names IH]; intros res d.
  { rewrite decide_False; [done|]. intros [[]%not_elem_of_nil _]. }
  simpl. rewrite IH. rewrite !assign_lookup.
  destruct (decide (d = n)) as [->|Hd].
  - destruct (decide (n <> "__proto__"%string \/ is_Some (res !! n))) as [Hok|Hno].
    + rewrite (decide_True (P := n = n /\ _)) by done.
      rewrite (decide_True (P := n ∈ n :: names /\ _))
        by (split; [by apply elem_of_cons; left|done]).
      by destruct (decide _).
    + rewrite (decide_False (P := n = n /\ _)) by (by intros [_ ?]).
      rewrite (decide_False (P := n ∈ n :: names /\ _)) by (by intros [_ ?]).
      rewrite decide_False; [done|]. by intros [_ ?].
  - rewrite (decide_False (P := d = n /\ _)) by (by intros [? _]).
    destruct (decide (d ∈ names /\ (d <> "__proto__"%string \/ is_Some (res !! d))))
      as [[Hin Hok]|Hno].
    + rewrite decide_True; [done|]. split; [by apply elem_of_cons; right|done].
    + rewrite decide_False; [done|].
      intros [[?|Hin]%elem_of_cons Hok]; [done|]. by apply Hno.
Qed.

Lemma set_dimensions_lookup time names l d :
  set_dimensions time names l !! d
  = if decide (d ∈ names
               /\ (d <> "__proto__"%string
                   \/ is_Some (default ∅ (dimensionValues l) !! d)))
    then Some time
    else default ∅ (dimensionValues l) !! d.
Proof. apply foldl_assign_lookup. Qed.

Lemma find_dimensions_own dims i names :
  find_dimensions dims i = Own names <-> dims !! i = Some names.
Proof.
  unfold find_dimensions. destruct (dims !! i) as [names'|].
  - split; by intros [= ->].
  - by destruct (bool_decide _).
Qed.

Lemma update_layers_spec time dims layers :
  let out := update_layers time dims layers in
  (out.2 = None
   /\ (forall l, l ∈ layers -> find_dimensions dims (id l) <> Inherited)
   /\ out.1 = omap (call_of time dims) layers)
  \/ (out.2 = Some TypeError
      /\ exists before l after,
           layers = before ++ l :: after
           /\ find_dimensions dims (id l) = Inherited
           /\ (forall l', l' ∈ before -> find_dimensions dims (id l') <> Inherited)
           /\ out.1 = omap (call_of time dims) before).
Proof.
  induction layers as [|l layers IH]; simpl.
  { left. split; [done|]. split; [|done]. by intros l []%not_elem_of_nil. }
  unfold call_of at 1 3.
  destruct (find_dimensions dims (id l)) as [names| |] eqn:Hfind.
  - apply find_dimensions_own in Hfind as Hown. rewrite Hown. simpl.
    destruct IH as [(Hnone & Hall & Hcalls)|(Herr & before & l' & after & -> & Hl' & Hbefore & Hcalls)].
    + left. split; [done|]. split; [|by rewrite Hcalls].
      intros l' [->|Hin]%elem_of_cons; [by rewrite Hfind|by apply Hall].
    + right. split; [done|]. exists (l :: before), l', after.
      split; [done|]. split; [done|]. split.
      * intros l2 [->|Hin]%elem_of_cons; [by rewrite Hfind|by apply Hbefore].
      * simpl. unfold call_of at 1. rewrite Hown. simpl. by rewrite Hcalls.
  - right. split; [done|]. exists [], l, layers. split; [done|].
    split; [done|]. split; [|done]. by intros l' []%not_elem_of_nil.
  - assert (dims !! id l = None) as Hnone.
    { unfold find_dimensions in Hfind. by destruct (dims !! id l). }
    rewrite Hnone.
    destruct IH as [(Hn & Hall & Hcalls)|(Herr & before & l' & after & -> & Hl' & Hbefore & Hcalls)].
    + left. split; [done|]. split; [|done].
      intros l' [->|Hin]%elem_of_cons; [by rewrite Hfind|by apply Hall].
    + right. split; [done|]. exists (l :: before), l', after.
      split; [done|]. split; [done|]. split.
      * intros l2 [->|Hin]%elem_of_cons; [by rewrite Hfind|by apply Hbefore].
      * simpl. unfold call_of at 1. by rewrite Hnone.
Qed.


Lemma omap_call_of_ids time dims layers :
  (omap (call_of time dims) layers).*1
  = filter (fun i => is_Some (dims !! i)) (id <$> layers).
Proof.
  induction layers as [|l layers IH]; simpl; [done|].
  rewrite filter_cons. unfold call_of at 1.
  destruct (dims !! id l) as [names|] eqn:Hd; simpl.
  - f_equal. exact IH.
  - exact IH.
Qed.


(** When it does not throw, there is one call of [setLayerDimensions] for each
    layer that has an entry in [timeDimensions], in the order of the layers,
    and none for the others, whose ids are no names of members of
    [Object.prototype]. The dimensions passed have every time dimension of
    the layer set to the current time (to [undefined] when time is disabled)
    and all other dimension values of the layer as they were; a time
    dimension named ["__proto__"] is set only if the layer has a dimension
    value of that name. *)
Theorem update_dimensions_calls toISOString layers enabled dims ts calls :
  updateLayerTimeDimensions toISOString layers enabled dims ts = (calls, None) ->
  exists time,
    (if enabled then exists t text, ts = Some t /\ toISOString t = Some text
                                    /\ time = Some text
     else time = None)
    /\ calls.*1 = filter (fun i => is_Some (dims !! i)) (id <$> layers)
    /\ (forall l, l ∈ layers -> dims !! id l = None ->
          id l ∉ object_prototype_names)
    /\ forall i m, (i, m) ∈ calls ->
         exists l names,
           l ∈ layers /\ id l = i /\ dims !! i = Some names
           /\ forall d, m !! d
                = if decide (d ∈ names
                             /\ (d <> "__proto__"%string
                                 \/ is_Some (default ∅ (dimensionValues l) !! d)))
                  then Some time
                  else default ∅ (dimensionValues l) !! d.
Proof.
  unfold updateLayerTimeDimensions.
  destruct (current_time toISOString enabled ts) as [time|] eqn:Htime; [|done].
  intros Hout. exists time.
  pose proof (update_layers_spec time dims layers) as Hspec. cbv zeta in Hspec.
  rewrite Hout in Hspec. simpl in Hspec.
  destruct Hspec as [(_ & Hall & ->)|(Herr & _)]; [|done].
  split; [|split; [|split]].
  - unfold current_time in Htime. destruct enabled; [|by injection Htime].
    destruct ts as [t|]; [|done]. destruct (toISOString t) as [text|] eqn:Hiso;
      [|done]. injection Htime as <-. by exists t, text.
  - apply omap_call_of_ids.
  - intros l Hin Hnone Hproto. apply (Hall l Hin). unfold find_dimensions.
    rewrite Hnone. by rewrite bool_decide_eq_true_2.
  - intros i m Hin. apply list_elem_of_omap in Hin as (l & Hl & Hcall).
    unfold call_of in Hcall.
    destruct (dims !! id l) as [names|] eqn:Hd; [|done].
    injection Hcall as <- <-. exists l, names. repeat split; try done.
    intros d. apply set_dimensions_lookup.
Qed.

End TimeManagerTheory.

(** * ZoomButton *)

Module ZoomButtonTheory.

Import ZoomButton.

Lemma lt_int a b : lt (int a) (int b) = bool_decide (a < b)%Z.
Proof.
  unfold lt, int.
  destruct (Qcanon.Qccompare (Qc_of_Z a) (Qc_of_Z b)) eqn:Hc.
  - apply Qcanon.Qceq_alt, Z2Qc_inj in Hc as ->.
    symmetry. apply bool_decide_eq_false_2. lia.
  - apply Qcanon.Qclt_alt, Z2Qc_inj_lt in Hc.
    symmetry. by apply bool_decide_eq_true_2.
  - symmetry. apply bool_decide_eq_false_2. intros Hlt%Z2Qc_inj_lt.
    apply (proj1 (Qcanon.Qclt_alt _ _)) in Hlt. congruence.
Qed.

Lemma le_int a b : le (int a) (int b) = bool_decide (a <= b)%Z.
Proof.
  unfold le, int.
  destruct (Qcanon.Qccompare (Qc_of_Z a) (Qc_of_Z b)) eqn:Hc.
  - apply Qcanon.Qceq_alt, Z2Qc_inj in Hc as ->.
    symmetry. apply bool_decide_eq_true_2. lia.
  - apply Qcanon.Qclt_alt, Z2Qc_inj_lt in Hc.
    symmetry. apply bool_decide_eq_true_2. lia.
  - symmetry. apply bool_decide_eq_false_2. intros Hle%Z2Qc_inj_le.
    apply (proj1 (Qcanon.Qcle_alt _ _)) in Hle. congruence.
Qed.

Lemma add_int a b : add (int a) (int b) = int (a + b).
Proof. unfold add, int. by rewrite Z2Qc_inj_add. Qed.

(** Where the zoom levels are integers (the current level [z] among the
    levels [0 .. m] of the map, [m] below [2 ^ 53]): with the state that
    [componentDidUpdate] sets for the props, and without box selection, the
    button of [ZoomInPlugin] or [ZoomOutPlugin] is enabled exactly when the
    level its click asks for is a level of the map. *)
Theorem button_level_in_range props st z m :
  updated_state props = Some st ->
  enableZoomByBoxSelection props = false ->
  direction props = int 1 \/ direction props = int (-1) ->
  currentZoom props = int z ->
  maxZoom props = int m ->
  (0 <= z <= m)%Z ->
  (m < 2 ^ 53)%Z ->
  disabled st = false
  <-> exists zoom, buttonClicked props = ChangeZoomLevel (int zoom)
                   /\ (0 <= zoom <= m)%Z
                   /\ le (int 0) (int zoom) = true
                   /\ le (int zoom) (maxZoom props) = true.
Proof.
  intros Hst Hbox Hdir Hcur Hmax Hzoom _. unfold buttonClicked. rewrite Hbox.
  unfold updated_state in Hst. rewrite Hcur, Hmax in *.
  destruct Hdir as [Hd|Hd]; rewrite Hd in Hst |- *;
    rewrite !lt_int, !le_int in Hst.
  - rewrite bool_decide_eq_true_2 in Hst by lia. injection Hst as <-.
    cbn [disabled]. rewrite add_int.
    destruct (bool_decide_reflect (m <= z)%Z) as [Hle|Hgt].
    + split; [done|]. intros (zoom & Heq & Hz & _).
      injection Heq as Heq. lia.
    + split; [|done]. intros _. exists (z + 1)%Z. split; [done|].
      split; [lia|]. rewrite !le_int. split; apply bool_decide_eq_true_2; lia.
  - rewrite bool_decide_eq_false_2 in Hst by lia.
    rewrite bool_decide_eq_true_2 in Hst by lia. injection Hst as <-.
    cbn [disabled]. rewrite add_int.
    destruct (bool_decide_reflect (z <= 0)%Z) as [Hle|Hgt].
    + split; [done|]. intros (zoom & Heq & Hz & _).
      injection Heq as Heq. lia.
    + split; [|done]. intros _. exists (z + -1)%Z. split; [done|].
      split; [lia|]. rewrite !le_int. split; apply bool_decide_eq_true_2; lia.
Qed.

(** Between two levels the two come apart: at 9.5 of 10 the button to zoom in
    is enabled, and its click asks for 10.5. *)
Lemma button_level_between :
  updated_state zb_between = Some (mkState false (Some "ZoomIn"%string))
  /\ buttonClicked zb_between
     = ChangeZoomLevel (Fin (Qcanon.Q2Qc (QArith_base.Qmake 21 2)))
  /\ le (Fin (Qcanon.Q2Qc (QArith_base.Qmake 21 2))) (maxZoom zb_between) = false.
Proof. split; [|split]; vm_compute; reflexivity. Qed.

End ZoomButtonTheory.

(** * Further theorems at concrete inputs *)

Lemma evaluation_resolves_nothing_witness :
  let tr := [EvGet 0 "parcels" "EPSG:2056" "id" "42";
             EvParseExpression sc_lookup false;
             EvParseExpressionsAsync sc_batch;
             EvThen 0] in
  forallb is_evaluation tr = true
  /\ store (run sc_grammar tr initial) = ∅.
Proof.
  cbv zeta. split; [reflexivity|].
  apply (evaluation_resolves_nothing sc_grammar _ initial). reflexivity.
Defined.


Lemma answered_waiter_ready_witness :
  let w := mkWaiter [0] sc_lookup in
  Forall (fun fid => fid < length (fetches sc_pending)) (w_promises w)
  /\ ready w (answer_all (fun _ => ResFeatures [sc_parcel]) (w_promises w) sc_pending)
     = true.
Proof.
  cbv zeta.
  assert (Forall (fun fid => fid < length (fetches sc_pending))
                 (w_promises (mkWaiter [0] sc_lookup))) as Hvalid.
  { constructor; [|constructor]. vm_compute. apply le_n. }
  split; [assumption|].
  apply (answered_waiter_ready (fun _ => ResFeatures [sc_parcel])
           (mkWaiter [0] sc_lookup) sc_pending Hvalid).
Defined.

Lemma settled_round_repeats_witness :
  settled sc_pending (t_mapPrefix sc_lookup) (task_prog sc_grammar sc_lookup)
  /\ (parseExpression sc_grammar sc_lookup false sc_pending).2 = VNull.
Proof.
  assert (settled sc_pending (t_mapPrefix sc_lookup) (task_prog sc_grammar sc_lookup))
    as Hk.
  { split; [|exact I]. left. apply (bool_decide_unpack _). vm_compute. exact I. }
  split; [assumption|].
  apply (settled_round_repeats sc_grammar sc_lookup sc_pending Hk).
Defined.

Lemma batch_mapping_exact_witness :
  NoDup (b_expressions sc_batch).*1
  /\ (resolved_with (parseExpressionsAsync sc_grammar 2 sc_batch initial) "x"
      = Some (VNum 2)
      <-> exists expr, (("x"%string, expr) ∈ b_expressions sc_batch)
            /\ prog_result initial (b_mapPrefix sc_batch)
                 (entry_prog sc_grammar sc_batch expr) = Some (VNum 2)).
Proof.
  assert (NoDup (b_expressions sc_batch).*1) as Hnd
    by (apply (bool_decide_unpack _); vm_compute; exact I).
  split; [assumption|].
  apply (batch_mapping_exact sc_grammar 0 sc_batch initial "x" (VNum 2) Hnd).
Defined.

Lemma batch_then_round_settled_witness :
  (("y"%string, t_expr sc_lookup) ∈ b_expressions sc_batch
   /\ t_feature sc_lookup = b_feature sc_batch
   /\ t_asFilter sc_lookup = b_asFilter sc_batch
   /\ t_mapPrefix sc_lookup = b_mapPrefix sc_batch)
  /\ exists st' m,
       parseExpressionsAsync sc_grammar 2 sc_batch initial = Some (st', m)
       /\ round_promises sc_grammar sc_lookup st' = []
       /\ fetches (parseExpression sc_grammar sc_lookup false st').1 = fetches st'
       /\ waiters (parseExpression sc_grammar sc_lookup false st').1 = waiters st'.
Proof.
  assert (("y"%string, t_expr sc_lookup) ∈ b_expressions sc_batch) as Hin.
  { apply elem_of_cons. right. apply elem_of_cons. left. reflexivity. }
  split; [by repeat split|].
  apply (batch_then_round_settled sc_grammar 0 sc_batch initial "y" sc_lookup false
           Hin eq_refl eq_refl eq_refl).
Defined.

Lemma reevaluation_terminates_witness :
  requests (@initial (list (string * Z))) = ∅
  /\ exists tr,
       answers_with (fun _ => ResFeatures [sc_parcel]) tr
       /\ requests (run sc_grammar tr
                      (step sc_grammar (EvParseExpression sc_lookup false) initial)) = ∅
       /\ waiters (run sc_grammar tr
                     (step sc_grammar (EvParseExpression sc_lookup false) initial))
          = []
       /\ round_promises sc_grammar sc_lookup
            (run sc_grammar tr
               (step sc_grammar (EvParseExpression sc_lookup false) initial)) = []
       /\ callbacks (run sc_grammar tr
                       (step sc_grammar (EvParseExpression sc_lookup false) initial))
          = [] ++ match round_promises sc_grammar sc_lookup initial with
                  | [] => []
                  | _ :: _ => [t_reevaluateCallback sc_lookup]
                  end.
Proof.
  split; [reflexivity|].
  apply (reevaluation_terminates sc_grammar (fun _ => ResFeatures [sc_parcel])
           sc_lookup initial eq_refl).
Defined.

Lemma tick_stays_in_range_witness :
  let c := TimeManager.run tm_add tm_trace TimeManager.mounted in
  (0 ∈ TimeManager.running c
   /\ TimeManager.currentTimestamp (TimeManager.state c) = Some 0%Z
   /\ last (TimeManager.timeValues (TimeManager.state c)) = Some 1500%Z)
  /\ exists ts',
       TimeManager.currentTimestamp
         (TimeManager.state (TimeManager.step tm_add (TimeManager.Tick 0) c))
       = Some ts' /\ (ts' <= 1500)%Z.
Proof.
  cbv zeta.
  assert (0 ∈ TimeManager.running (TimeManager.run tm_add tm_trace TimeManager.mounted))
    as Hin by (apply (bool_decide_unpack _); vm_compute; exact I).
  assert (TimeManager.currentTimestamp
            (TimeManager.state (TimeManager.run tm_add tm_trace TimeManager.mounted))
          = Some 0%Z) as Hts by (vm_compute; reflexivity).
  assert (last (TimeManager.timeValues
                  (TimeManager.state (TimeManager.run tm_add tm_trace TimeManager.mounted)))
          = Some 1500%Z) as Hlast by (vm_compute; reflexivity).
  split; [by repeat split|].
  apply (TimeManagerTheory.tick_stays_in_range tm_add tm_trace 0 0%Z 1500%Z
           Hin Hts Hlast).
Defined.

Lemma update_dimensions_calls_witness :
  let dims : gmap string (list string) := {[ "floods"%string := ["TIME"%string] ]} in
  let calls := [("floods"%string,
                 ({[ "TIME"%string := None; "ELEVATION"%string := Some "0"%string ]}
                  : gmap string (option string)))] in
  TimeManager.updateLayerTimeDimensions (fun _ => None) tm_layers false dims None
    = (calls, None)
  /\ calls.*1 = filter (fun i => is_Some (dims !! i)) (TimeManager.id <$> tm_layers).
Proof.
  cbv zeta.
  assert (TimeManager.updateLayerTimeDimensions (fun _ => None) tm_layers false
            {[ "floods"%string := ["TIME"%string] ]} None
          = ([("floods"%string,
               ({[ "TIME"%string := None; "ELEVATION"%string := Some "0"%string ]}
                : gmap string (option string)))], None)) as Hcalls
    by (vm_compute; reflexivity).
  split; [assumption|].
  destruct (TimeManagerTheory.update_dimensions_calls _ _ _ _ _ _ Hcalls)
    as (time & _ & Hnames & _).
  exact Hnames.
Defined.


Lemma button_level_in_range_witness :
  (ZoomButton.updated_state zb_props = Some (ZoomButton.mkState false (Some "ZoomIn"%string))
   /\ ZoomButton.enableZoomByBoxSelection zb_props = false
   /\ (ZoomButton.direction zb_props = ZoomButton.int 1
       \/ ZoomButton.direction zb_props = ZoomButton.int (-1))
   /\ ZoomButton.currentZoom zb_props = ZoomButton.int 3
   /\ ZoomButton.maxZoom zb_props = ZoomButton.int 10
   /\ (0 <= 3 <= 10)%Z /\ (10 < 2 ^ 53)%Z)
  /\ (ZoomButton.disabled (ZoomButton.mkState false (Some "ZoomIn"%string)) = false
      <-> exists zoom,
            ZoomButton.buttonClicked zb_props
            = ZoomButton.ChangeZoomLevel (ZoomButton.int zoom)
            /\ (0 <= zoom <= 10)%Z
            /\ ZoomButton.le (ZoomButton.int 0) (ZoomButton.int zoom) = true
            /\ ZoomButton.le (ZoomButton.int zoom) (ZoomButton.maxZoom zb_props) = true).
Proof.
  assert (ZoomButton.updated_state zb_props
          = Some (ZoomButton.mkState false (Some "ZoomIn"%string))) as Hst
    by (vm_compute; reflexivity).
  assert (0 <= 3 <= 10)%Z as Hzoom by lia.
  assert (10 < 2 ^ 53)%Z as Hmax by (vm_compute; reflexivity).
  split; [repeat split; try reflexivity; try assumption; try apply Hzoom; by left|].
  apply (ZoomButtonTheory.button_level_in_range zb_props _ 3 10 Hst eq_refl
           (or_introl eq_refl) eq_refl eq_refl Hzoom Hmax).
Defined.

Lemma pending_until_callback_witness :
  let tr := [EvParseExpression sc_lookup false;
             EvParseExpression (sc_task "1+1" 3) false] in
  (forallb (fun e => negb (is_clear e)) tr = true
   /\ fetches (run sc_grammar tr initial) !! 0 = Some sc_req
   /\ 0 ∉ accepted (run sc_grammar tr initial))
  /\ req_key sc_req ∈ requests (run sc_grammar tr initial).
Proof.
  cbv zeta.
  assert (fetches (run sc_grammar [EvParseExpression sc_lookup false;
                                   EvParseExpression (sc_task "1+1" 3) false] initial)
          !! 0 = Some sc_req) as Hf by (vm_compute; reflexivity).
  assert (0 ∉ accepted (run sc_grammar [EvParseExpression sc_lookup false;
                                        EvParseExpression (sc_task "1+1" 3) false]
                            initial)) as Hacc
    by (apply (bool_decide_unpack _); vm_compute; exact I).
  split; [split; [reflexivity|split; assumption]|].
  apply (pending_until_callback sc_grammar
           [EvParseExpression sc_lookup false;
            EvParseExpression (sc_task "1+1" 3) false] 0 sc_req eq_refl Hf Hacc).
Defined.

Lemma stopping_controls_witness :
  let c := TimeManager.run tm_add tm_trace TimeManager.mounted in
  (("stop"%string = "rewind"%string \/ "stop"%string = "stop"%string)
   /\ TimeManager.button_enabled "stop" c = true)
  /\ TimeManager.running (TimeManager.step tm_add (TimeManager.Button "stop") c) = ∅.
Proof.
  cbv zeta.
  assert (TimeManager.button_enabled "stop"
            (TimeManager.run tm_add tm_trace TimeManager.mounted) = true) as Hb
    by (vm_compute; reflexivity).
  split; [split; [by right|assumption]|].
  apply (TimeManagerTheory.stopping_controls tm_add tm_trace
           (TimeManager.Button "stop") (conj (or_intror eq_refl) Hb)).
Defined.
